(** * pueblos_magicos: the polyline codec of [google_api.py]

    A shallow embedding of [decode_polyline], [encode_coords],
    [_split_into_chunks], [_encode_value] and [get_directions_polylines],
    and the properties the design document states about them.

    Python integers are unbounded, so they are [Z] and the bit operators
    are [Z.land], [Z.lor], [Z.lnot], [Z.shiftl] and [Z.shiftr] (two's
    complement on an infinite sign extension, as in Python).  Python floats
    are IEEE-754 binary64 numbers, so they are the kernel's primitive
    floats: [y * 1e5] is [PrimFloat.mul] and [lat / 100000.0] is
    [PrimFloat.div], both correctly rounded to nearest-even. *)

From Stdlib Require Import ZArith List Bool String Ascii Floats QArith Lia.
From Equations Require Import Equations.
Import ListNotations.

Set Warnings "-inexact-float,-register-all".
Local Open Scope Z_scope.

(** ** The Python runtime the module relies on *)

Module Py.

(** The built-in exceptions the embedded functions can raise. *)
Inductive exception : Set :=
| IndexError      (* sequence subscript out of range *)
| OverflowError   (* int(inf), or an int too large for a float *)
| ValueError      (* int(nan) *)
| NameError       (* a name that is bound nowhere *)
| KeyError        (* a missing dictionary key *)
| TypeError.      (* subscripting a value that has no items *)

(** A call either returns a value or raises. *)
Inductive outcome (A : Type) : Type :=
| Ok (a : A)
| Raise (e : exception).
Arguments Ok {A} a.
Arguments Raise {A} e.

Definition bind {A B : Type} (r : outcome A) (k : A -> outcome B) : outcome B :=
  match r with
  | Ok a => k a
  | Raise e => Raise e
  end.

(** A [str] is a sequence of Unicode code points; [ord] and [chr] are the
    two directions of that reading.  Python's [chr] raises [ValueError]
    outside [range(0x110000)]; the encoder only calls it on 63..126
    (lemma [encode_value_printable] below). *)
Definition char : Set := Z.
Definition str : Set := list char.
Definition ord (c : char) : Z := c.
Definition chr (n : Z) : char := n.

(** A literal, from its ASCII spelling. *)
Definition str_of (s : string) : str :=
  List.map (fun a => Z.of_N (N_of_ascii a)) (list_ascii_of_string s).

(** [int(f)] for a float [f]: the value truncated toward zero;
    [OverflowError] on an infinity, [ValueError] on a NaN. *)
Definition int_of_float (f : float) : outcome Z :=
  match Prim2SF f with
  | S754_zero _ => Ok 0
  | S754_finite s m e =>
      let magnitude :=
        if 0 <=? e then Z.shiftl (Z.pos m) e else Z.shiftr (Z.pos m) (- e) in
      Ok (if s then - magnitude else magnitude)
  | S754_infinity _ => Raise OverflowError
  | S754_nan => Raise ValueError
  end.

(** The conversion of an [int] operand of a float operation: the nearest
    binary64 number, ties to even; [OverflowError] when that is beyond the
    largest finite one. *)
Definition float_of_int (z : Z) : outcome float :=
  let f := SF2Prim (binary_normalize prec emax z 0 false) in
  if PrimFloat.is_infinity f then Raise OverflowError else Ok f.

(** [n / d] for an int [n] and a float [d] (here [d] is never zero). *)
Definition truediv_int_float (n : Z) (d : float) : outcome float :=
  bind (float_of_int n) (fun f => Ok (PrimFloat.div f d)).

(** [a == b] on floats. *)
Definition float_eq (a b : float) : bool := PrimFloat.eqb a b.

End Py.
Import Py.

Notation "x <- r ;; k" := (bind r (fun x => k))
  (at level 61, r at next level, right associativity).
Notation "' p <- r ;; k" := (bind r (fun x => let p := x in k))
  (at level 61, p pattern, r at next level, right associativity).

(** A coordinate: the pair the encoder unpacks with [for x, y in coords],
    and the two-element list [[lat, lng]] the decoder appends. *)
Definition coordinate : Set := (float * float)%type.

(** ** [_split_into_chunks] and [_encode_value] *)

(** [while value >= 32: yield (value & 31) | 0x20; value >>= 5] and then
    [yield value]; the generator is read as the list it produces. *)
Equations? _split_into_chunks (value : Z) : list Z
  by wf (Z.to_nat (Z.log2 value)) lt :=
  _split_into_chunks value with Z_ge_dec value 32 := {
    | left _ => Z.lor (Z.land value 31) 32 :: _split_into_chunks (Z.shiftr value 5)
    | right _ => [value] }.
Proof.
  rewrite Z.log2_shiftr by lia.
  assert (Z.log2 32 <= Z.log2 value) by (apply Z.log2_le_mono; lia).
  change (Z.log2 32) with 5 in *.
  lia.
Qed.

Definition _encode_value (value : Z) : str :=
  let value := if value <? 0 then Z.lnot (Z.shiftl value 1) else Z.shiftl value 1 in
  let chunks := _split_into_chunks value in
  List.map (fun chunk => chr (chunk + 63)) chunks.

(** ** [encode_coords] *)

(** The expression [int(v * 1e5)] of the loop body. *)
Definition scaled (v : float) : outcome Z :=
  int_of_float (PrimFloat.mul v 100000).

(** The [for x, y in coords] loop, on its state [prev_lat], [prev_lng] and
    [result].  The names are the source's: [lat] is made from the second
    component [y] and [lng] from the first component [x]. *)
Fixpoint encode_loop (coords : list coordinate) (prev_lat prev_lng : Z)
    (result : list str) : outcome (list str) :=
  match coords with
  | [] => Ok result
  | (x, y) :: coords' =>
      lat <- scaled y ;;
      lng <- scaled x ;;
      let d_lat := _encode_value (lat - prev_lat) in
      let d_lng := _encode_value (lng - prev_lng) in
      let result := result ++ [d_lng] in
      let result := result ++ [d_lat] in
      encode_loop coords' lat lng result
  end.

(** [''.join(c for r in result for c in r)] is [concat]. *)
Definition encode_coords (coords : list coordinate) : outcome str :=
  result <- encode_loop coords 0 0 [] ;;
  Ok (List.concat result).

(** ** [decode_polyline] *)

(** The cursor [index] into [polyline_str] is carried as the unread suffix
    [polyline_str[index:]]: [index < len(polyline_str)] is the suffix being
    non-empty, and [polyline_str[index]] at [index = len(polyline_str)]
    raises [IndexError]. *)

(** The [while True] loop that gathers one integer. *)
Fixpoint gather (rest : str) (shift result : Z) : outcome (Z * str) :=
  match rest with
  | [] => Raise IndexError
  | c :: rest' =>
      let byte := ord c - 63 in
      let result := Z.lor result (Z.shiftl (Z.land byte 31) shift) in
      let shift := shift + 5 in
      if byte >=? 32 then gather rest' shift result else Ok (result, rest')
  end.

(** One pass of the body of [for unit in ...]: the change that is stored
    into [changes[unit]], and the input left. *)
Definition decode_value (rest : str) : outcome (Z * str) :=
  '(result, rest') <- gather rest 0 0 ;;
  if negb (Z.land result 1 =? 0)
  then Ok (Z.lnot (Z.shiftr result 1), rest')
  else Ok (Z.shiftr result 1, rest').

(** The dictionary [changes], with its two keys. *)
Inductive unit_key : Set := latitude | longitude.

Record changes_dict : Set := { at_latitude : Z; at_longitude : Z }.

Definition changes_get (changes : changes_dict) (unit : unit_key) : Z :=
  match unit with
  | latitude => at_latitude changes
  | longitude => at_longitude changes
  end.

Definition changes_set (changes : changes_dict) (unit : unit_key) (v : Z)
    : changes_dict :=
  match unit with
  | latitude => {| at_latitude := v; at_longitude := at_longitude changes |}
  | longitude => {| at_latitude := at_latitude changes; at_longitude := v |}
  end.

(** [for unit in units: ...] *)
Fixpoint for_units (units : list unit_key) (rest : str) (changes : changes_dict)
    : outcome (changes_dict * str) :=
  match units with
  | [] => Ok (changes, rest)
  | unit :: units' =>
      '(change, rest') <- decode_value rest ;;
      for_units units' rest' (changes_set changes unit change)
  end.

Lemma gather_shorter (rest : str) :
  forall shift result v rest',
    gather rest shift result = Ok (v, rest') ->
    (List.length rest' < List.length rest)%nat.
Proof.
  induction rest as [|c rest IH]; simpl; intros shift result v rest' H.
  - discriminate.
  - destruct (ord c - 63 >=? 32).
    + apply IH in H. lia.
    + inversion H; subst. lia.
Qed.

Lemma decode_value_shorter (rest : str) (v : Z) (rest' : str) :
  decode_value rest = Ok (v, rest') ->
  (List.length rest' < List.length rest)%nat.
Proof.
  unfold decode_value.
  destruct (gather rest 0 0) as [[r s]|e] eqn:G; simpl; [|discriminate].
  apply gather_shorter in G.
  destruct (negb (Z.land r 1 =? 0)); intros H; inversion H; subst; exact G.
Qed.

Lemma for_units_shorter (units : list unit_key) :
  forall rest changes changes' rest',
    for_units units rest changes = Ok (changes', rest') ->
    (List.length rest' <= List.length rest)%nat.
Proof.
  induction units as [|u units IH]; simpl; intros rest changes changes' rest' H.
  - inversion H; subst. lia.
  - destruct (decode_value rest) as [[v s]|e] eqn:D; simpl in H; [|discriminate].
    apply decode_value_shorter in D. apply IH in H. lia.
Qed.

Lemma for_two_units_shorter (rest : str) changes changes' rest' :
  for_units [latitude; longitude] rest changes = Ok (changes', rest') ->
  (List.length rest' < List.length rest)%nat.
Proof.
  generalize [longitude]; intros units; simpl.
  destruct (decode_value rest) as [[v s]|e] eqn:D; simpl; [|discriminate].
  apply decode_value_shorter in D.
  intros H. apply for_units_shorter in H. lia.
Qed.

Definition inspect {A : Type} (a : A) : {b : A | a = b} := exist _ a eq_refl.

(** [while index < len(polyline_str): ...] on its state: the unread input,
    [lat], [lng], [coordinates] and [changes]. *)
Equations? decode_loop (rest : str) (lat lng : Z)
    (coordinates : list coordinate) (changes : changes_dict)
    : outcome (list coordinate) by wf (List.length rest) lt :=
  decode_loop [] lat lng coordinates changes := Ok coordinates;
  decode_loop (c :: rest0) lat lng coordinates changes with
      inspect (for_units [latitude; longitude] (c :: rest0) changes) := {
    | exist _ (Raise e) _ => Raise e
    | exist _ (Ok (changes', rest')) Hunits =>
        let lat := lat + changes_get changes' latitude in
        let lng := lng + changes_get changes' longitude in
        bind (truediv_int_float lat 100000) (fun lat_deg =>
        bind (truediv_int_float lng 100000) (fun lng_deg =>
        decode_loop rest' lat lng (coordinates ++ [(lat_deg, lng_deg)]) changes')) }.
Proof.
  change (for_units [latitude; longitude] (c :: rest0) changes = Ok (changes', rest'))
    in Hunits.
  apply for_two_units_shorter in Hunits.
  exact Hunits.
Qed.

Definition decode_polyline (polyline_str : str) : outcome (list coordinate) :=
  decode_loop polyline_str 0 0 [] {| at_latitude := 0; at_longitude := 0 |}.

(** ** [get_directions_polylines] *)

(** The values a decoded JSON response is made of.  A dictionary is the list
    of its items, in insertion order, keys without repetition. *)
Inductive object : Type :=
| PyNone
| PyStr (s : str)
| PyInt (n : Z)
| PyList (items : list object)
| PyDict (items : list (string * object)).

Definition dict : Type := list (string * object).

Fixpoint dict_get (d : dict) (key : string) : option object :=
  match d with
  | [] => None
  | (k, v) :: d' => if String.eqb k key then Some v else dict_get d' key
  end.

(** [key in d] *)
Definition dict_contains (d : dict) (key : string) : bool :=
  match dict_get d key with
  | Some _ => true
  | None => false
  end.

(** [o[key]] for a string [key]: [KeyError] when a dictionary lacks it,
    [TypeError] on a string, a list, a number or [None]. *)
Definition getitem (o : object) (key : string) : outcome object :=
  match o with
  | PyDict d =>
      match dict_get d key with
      | Some v => Ok v
      | None => Raise KeyError
      end
  | _ => Raise TypeError
  end.

(** [for direction in directions_result: ...].  In the [else] branch the
    name [polyline] is looked up before anything is appended; no such name
    is bound in the function or in the module. *)
Fixpoint polylines_loop (directions_result : list dict) (polylines : list object)
    : outcome (list object) :=
  match directions_result with
  | [] => Ok polylines
  | direction :: directions' =>
      if dict_contains direction "overview_polyline"
      then
        overview <- getitem (PyDict direction) "overview_polyline" ;;
        points <- getitem overview "points" ;;
        polylines_loop directions' (polylines ++ [points])
      else Raise NameError
  end.

Definition get_directions_polylines (directions_result : list dict)
    : outcome (list object) :=
  let polylines := [] in
  if (0 <? Z.of_nat (List.length directions_result))
  then polylines_loop directions_result polylines
  else Ok polylines.

(** ** The design document's wording, for comparison with the code *)

Module Spec.




(** The real number a finite float stands for. *)
Definition real_of_float (f : float) : option Q :=
  match Prim2SF f with
  | S754_zero _ => Some (0 # 1)
  | S754_finite s m e =>
      let n := if s then Z.neg m else Z.pos m in
      if 0 <=? e then Some ((n * 2 ^ e) # 1)
      else Some (n # Z.to_pos (2 ^ (- e)))
  | _ => None
  end.

(** Truncation of a real toward zero. *)
Definition truncate (q : Q) : Z := Z.quot (Qnum q) (Z.pos (Qden q)).

(** "scale_up(value: real): multiply by 100000 and truncate toward zero",
    in exact arithmetic. *)
Definition scale_up (value : Q) : Z := truncate (value * (100000 # 1))%Q.

(** A coordinate value "rounded to 5 decimal places": the binary64 number
    nearest to [k * 10^-5], which is the correctly rounded quotient
    [k / 100000.0]. *)
Definition five_decimals (k : Z) : outcome float := truediv_int_float k 100000.

(** Which delta of a coordinate is written first. *)
Inductive order : Set := longitude_first | latitude_first.

Definition emit (o : order) (d_latitude d_longitude : str) : str :=
  match o with
  | longitude_first => d_longitude ++ d_latitude
  | latitude_first => d_latitude ++ d_longitude
  end.

(** Section 4.3's encoder over (latitude, longitude) pairs, with the
    per-coordinate order of the two deltas left as a parameter.  The two
    scalings are evaluated as the code evaluates them (second component
    first), which only shows in the exception raised when both fail. *)
Fixpoint encode_from (o : order) (coords : list coordinate)
    (prev_latitude prev_longitude : Z) : outcome str :=
  match coords with
  | [] => Ok []
  | (lat_deg, lng_deg) :: coords' =>
      longitude' <- scaled lng_deg ;;
      latitude' <- scaled lat_deg ;;
      tail <- encode_from o coords' latitude' longitude' ;;
      Ok (emit o (_encode_value (latitude' - prev_latitude))
                 (_encode_value (longitude' - prev_longitude)) ++ tail)
  end.

Definition encode (o : order) (coords : list coordinate) : outcome str :=
  encode_from o coords 0 0.

End Spec.

(** ** Auxiliary readings used in the statements *)

(** [a == b] on coordinates and on coordinate sequences, component by
    component with the float comparison. *)
Definition coordinate_eq (a b : coordinate) : bool :=
  float_eq (fst a) (fst b) && float_eq (snd a) (snd b).

Fixpoint coordinates_eq (l1 l2 : list coordinate) : bool :=
  match l1, l2 with
  | [], [] => true
  | a :: l1', b :: l2' => coordinate_eq a b && coordinates_eq l1' l2'
  | _, _ => false
  end.

(** The two scaled integers of a coordinate, in tuple order, evaluated in
    the order of the loop body. *)
Definition scaled_pair (c : coordinate) : outcome (Z * Z) :=
  let '(x, y) := c in
  second <- scaled y ;;
  first <- scaled x ;;
  Ok (first, second).

Fixpoint scale_all (coords : list coordinate) : outcome (list (Z * Z)) :=
  match coords with
  | [] => Ok []
  | c :: coords' =>
      k <- scaled_pair c ;;
      ks <- scale_all coords' ;;
      Ok (k :: ks)
  end.

(** The characters written for a sequence of scaled integer pairs: per
    pair the delta of the first component, then the delta of the second. *)
Fixpoint emit_deltas (ks : list (Z * Z)) (prev_first prev_second : Z) : str :=
  match ks with
  | [] => []
  | (a, b) :: ks' =>
      _encode_value (a - prev_first) ++ _encode_value (b - prev_second)
        ++ emit_deltas ks' a b
  end.

(** The coordinate the decoder appends for a pair of running integers. *)
Definition unscaled_pair (k : Z * Z) : outcome coordinate :=
  let '(a, b) := k in
  lat_deg <- truediv_int_float a 100000 ;;
  lng_deg <- truediv_int_float b 100000 ;;
  Ok (lat_deg, lng_deg).

Fixpoint unscale_all (ks : list (Z * Z)) : outcome (list coordinate) :=
  match ks with
  | [] => Ok []
  | k :: ks' =>
      c <- unscaled_pair k ;;
      cs <- unscale_all ks' ;;
      Ok (c :: cs)
  end.

(** [int(v * 1e5) / 100000.0 == v]: the scaler gives [v] back. *)
Definition survives (v : float) : bool :=
  match scaled v with
  | Ok k =>
      match truediv_int_float k 100000 with
      | Ok v' => float_eq v' v
      | Raise _ => false
      end
  | Raise _ => false
  end.

(** [int((int(v * 1e5) / 100000.0) * 1e5) == int(v * 1e5)]: scaling the
    decoded value gives the scaled integer back. *)
Definition rescales (v : float) : bool :=
  match scaled v with
  | Ok k =>
      match truediv_int_float k 100000 with
      | Ok v' =>
          match scaled v' with
          | Ok k' => k' =? k
          | Raise _ => false
          end
      | Raise _ => false
      end
  | Raise _ => false
  end.

Definition known_vector : list coordinate :=
  [(38.5, -120.2); (40.7, -120.95); (43.252, -126.453)]%float.

Definition known_text : str := str_of "_p~iF~ps|U_ulLnnqC_mqNvxq`@".

(** The two sign transforms, as [_encode_value] and the decoder write
    them inline. *)
Definition fold_sign (value : Z) : Z :=
  if value <? 0 then Z.lnot (Z.shiftl value 1) else Z.shiftl value 1.

Definition unfold_sign (result : Z) : Z :=
  if negb (Z.land result 1 =? 0) then Z.lnot (Z.shiftr result 1)
  else Z.shiftr result 1.

Definition has_overview (direction : dict) : bool :=
  dict_contains direction "overview_polyline".

(** The nested ['points'] value of an entry, when it is there. *)
Definition points_of (direction : dict) : option object :=
  match dict_get direction "overview_polyline" with
  | Some (PyDict overview) => dict_get overview "points"
  | _ => None
  end.

(** The shape of a directions response: an overview polyline is optional,
    and one that is present is a dictionary with a ['points'] entry. *)
Definition well_shaped (direction : dict) : Prop :=
  has_overview direction = true -> points_of direction <> None.

Definition sample_directions : list dict :=
  [ [("summary"%string, PyStr (str_of "MEX 57"));
     ("overview_polyline"%string, PyDict [("points"%string, PyStr known_text)])];
    [("summary"%string, PyStr (str_of "no overview"))] ].

(** ** The other response helpers *)

(** The operations of [object] these helpers use. *)

Fixpoint str_eqb (a b : str) : bool :=
  match a, b with
  | [], [] => true
  | x :: a', y :: b' => (x =? y) && str_eqb a' b'
  | _, _ => false
  end.

(** [o == s] for a string [s]: a value of another type is unequal, it does
    not raise. *)
Definition eq_str (o : object) (s : str) : bool :=
  match o with
  | PyStr s' => str_eqb s' s
  | _ => false
  end.

(** [len(o)] *)
Definition len (o : object) : outcome nat :=
  match o with
  | PyStr s => Ok (List.length s)
  | PyList items => Ok (List.length items)
  | PyDict d => Ok (List.length d)
  | _ => Raise TypeError
  end.

(** The values [for x in o] goes through: the items of a list, the
    one-character strings of a string, the keys of a dictionary. *)
Definition iter (o : object) : outcome (list object) :=
  match o with
  | PyStr s => Ok (List.map (fun c => PyStr [c]) s)
  | PyList items => Ok items
  | PyDict d => Ok (List.map (fun kv => PyStr (str_of (fst kv))) d)
  | _ => Raise TypeError
  end.

(** [o[i]] for a non-negative integer [i]; the keys of a dictionary are
    strings here, so an integer key is missing. *)
Definition getitem_index (o : object) (i : nat) : outcome object :=
  match o with
  | PyStr s =>
      match nth_error s i with
      | Some c => Ok (PyStr [c])
      | None => Raise IndexError
      end
  | PyList items =>
      match nth_error items i with
      | Some v => Ok v
      | None => Raise IndexError
      end
  | PyDict _ => Raise KeyError
  | _ => Raise TypeError
  end.

(** [l[j] = v] on a list. *)
Fixpoint setitem {A : Type} (l : list A) (j : nat) (v : A) : outcome (list A) :=
  match l, j with
  | [], _ => Raise IndexError
  | _ :: l', O => Ok (v :: l')
  | x :: l', S j' => l'' <- setitem l' j' v ;; Ok (x :: l'')
  end.

(** [sum(x)]: starts from the integer 0; adding anything that is not a
    number raises. *)
Fixpoint sum_from (start : Z) (x : list object) : outcome Z :=
  match x with
  | [] => Ok start
  | PyInt n :: x' => sum_from (start + n) x'
  | _ :: _ => Raise TypeError
  end.

Definition sum (x : list object) : outcome Z := sum_from 0 x.

(** *** [get_geocode_locations] *)

Fixpoint geocode_loop (geocode_result : list object) (locations : list object)
    : outcome (list object) :=
  match geocode_result with
  | [] => Ok locations
  | address :: geocode_result' =>
      geometry <- getitem address "geometry" ;;
      location <- getitem geometry "location" ;;
      lat <- getitem location "lat" ;;
      lng <- getitem location "lng" ;;
      geocode_loop geocode_result' (locations ++ [PyList [lat; lng]])
  end.

Definition get_geocode_locations (geocode_result : list object)
    : outcome (list object) :=
  geocode_loop geocode_result [].

(** *** [get_duration_matrix] and [get_distance_matrix] *)

(** The two functions differ only in the expression that is assigned to
    [matrix[i][j]]; their loops are written once, over that expression. *)

(** [element['duration_in_traffic']['value']] if the element has that key,
    else [element['duration']['value']]. *)
Definition duration_cell (element : dict) : outcome object :=
  if dict_contains element "duration_in_traffic"
  then
    traffic <- getitem (PyDict element) "duration_in_traffic" ;;
    getitem traffic "value"
  else
    duration <- getitem (PyDict element) "duration" ;;
    getitem duration "value".

(** [element['distance']['value']] *)
Definition distance_cell (element : dict) : outcome object :=
  distance <- getitem (PyDict element) "distance" ;;
  getitem distance "value".

(** [matrix[i][j] = v]: the row is looked up, the store goes into it. *)
Definition assign (matrix : list (list object)) (i j : nat) (v : object)
    : outcome (list (list object)) :=
  match nth_error matrix i with
  | None => Raise IndexError
  | Some matrix_i =>
      matrix_i' <- setitem matrix_i j v ;;
      setitem matrix i matrix_i'
  end.

(** [for j, element in enumerate(elements): ...] in row [i].  An element
    that is no dictionary fails at [element['status']].  The right-hand
    side of the assignment is evaluated before the store. *)
Fixpoint fill_row (cell : dict -> outcome object) (elements : list object)
    (i j : nat) (matrix : list (list object)) : outcome (list (list object)) :=
  match elements with
  | [] => Ok matrix
  | PyDict element :: elements' =>
      status <- getitem (PyDict element) "status" ;;
      if eq_str status (str_of "OK")
      then
        v <- cell element ;;
        matrix' <- assign matrix i j v ;;
        fill_row cell elements' i (S j) matrix'
      else fill_row cell elements' i (S j) matrix
  | _ :: _ => Raise TypeError
  end.

(** [for i, row in enumerate(rows): ...] *)
Fixpoint fill_matrix (cell : dict -> outcome object) (rows : list object)
    (i : nat) (matrix : list (list object)) : outcome (list (list object)) :=
  match rows with
  | [] => Ok matrix
  | row :: rows' =>
      elements <- getitem row "elements" ;;
      elements <- iter elements ;;
      matrix' <- fill_row cell elements i 0 matrix ;;
      fill_matrix cell rows' (S i) matrix'
  end.

Definition get_matrix (cell : dict -> outcome object)
    (distance_matrix_result : dict) : outcome (list (list object)) :=
  if negb (dict_contains distance_matrix_result "rows") then Ok []
  else
    rows <- getitem (PyDict distance_matrix_result) "rows" ;;
    M <- len rows ;;
    if (M =? 0)%nat then Ok []
    else
      row0 <- getitem_index rows 0 ;;
      elements0 <- getitem row0 "elements" ;;
      N <- len elements0 ;;
      let matrix := List.repeat (List.repeat PyNone N) M in
      rows <- iter rows ;;
      fill_matrix cell rows 0 matrix.

Definition get_duration_matrix (distance_matrix_result : dict)
    : outcome (list (list object)) :=
  get_matrix duration_cell distance_matrix_result.

Definition get_distance_matrix (distance_matrix_result : dict)
    : outcome (list (list object)) :=
  get_matrix distance_cell distance_matrix_result.

(** *** The legs of a directions response *)

(** [for leg in ...: distance.append(leg['distance']['value'])] *)
Fixpoint legs_distance_inner (legs : list object) (distance : list object)
    : outcome (list object) :=
  match legs with
  | [] => Ok distance
  | leg :: legs' =>
      d <- getitem leg "distance" ;;
      v <- getitem d "value" ;;
      legs_distance_inner legs' (distance ++ [v])
  end.

(** The value appended for one leg by [get_directions_legs_duration].  On
    [None] or a number the test ['duration_in_traffic' in leg] raises
    [TypeError]; on a string or a list the test returns and the subscript
    with a string key raises [TypeError]. *)
Definition leg_duration (leg : object) : outcome object :=
  match leg with
  | PyDict l =>
      if dict_contains l "duration_in_traffic"
      then
        traffic <- getitem leg "duration_in_traffic" ;;
        getitem traffic "value"
      else
        duration <- getitem leg "duration" ;;
        getitem duration "value"
  | _ => Raise TypeError
  end.

Fixpoint legs_duration_inner (legs : list object) (distance : list object)
    : outcome (list object) :=
  match legs with
  | [] => Ok distance
  | leg :: legs' =>
      v <- leg_duration leg ;;
      legs_duration_inner legs' (distance ++ [v])
  end.

(** [for direction in directions_result: if 'legs' in direction: ...], over
    the inner loop of either function. *)
Fixpoint legs_loop (inner : list object -> list object -> outcome (list object))
    (directions_result : list dict) (distances : list (list object))
    : outcome (list (list object)) :=
  match directions_result with
  | [] => Ok distances
  | direction :: directions' =>
      if dict_contains direction "legs"
      then
        legs <- getitem (PyDict direction) "legs" ;;
        legs <- iter legs ;;
        distance <- inner legs [] ;;
        legs_loop inner directions' (distances ++ [distance])
      else legs_loop inner directions' distances
  end.

Definition get_directions_legs_distance (directions_result : list dict)
    : outcome (list (list object)) :=
  legs_loop legs_distance_inner directions_result [].

Definition get_directions_legs_duration (directions_result : list dict)
    : outcome (list (list object)) :=
  legs_loop legs_duration_inner directions_result [].

(** [list(map(lambda x: sum(x), distances))] *)
Fixpoint map_sum (distances : list (list object)) : outcome (list Z) :=
  match distances with
  | [] => Ok []
  | x :: distances' =>
      total <- sum x ;;
      totals <- map_sum distances' ;;
      Ok (total :: totals)
  end.

Definition get_directions_total_distance (directions_result : list dict)
    : outcome (list Z) :=
  distances <- get_directions_legs_distance directions_result ;;
  map_sum distances.

Definition get_directions_total_duration (directions_result : list dict)
    : outcome (list Z) :=
  durations <- get_directions_legs_duration directions_result ;;
  map_sum durations.

(** ** Readings used in the further properties *)

(** A character that ends an integer: after the offset its continuation
    bit is clear. *)
Definition ends_integer (c : char) : bool := ord c - 63 <? 32.

Definition count_ends (text : str) : nat :=
  List.length (List.filter ends_integer text).

(** The float product [v * 1e5] is a number, not an infinity or a NaN. *)
Definition product_is_finite (v : float) : bool :=
  match Prim2SF (PrimFloat.mul v 100000) with
  | S754_zero _ | S754_finite _ _ _ => true
  | _ => false
  end.

Definition finite_coordinate (c : coordinate) : bool :=
  product_is_finite (fst c) && product_is_finite (snd c).

(** The cell at row [i], column [j] of a matrix, when there is one. *)
Definition cell_at (matrix : list (list object)) (i j : nat) : option object :=
  match nth_error matrix i with
  | Some row => nth_error row j
  | None => None
  end.

Definition has_legs (direction : dict) : bool := dict_contains direction "legs".

(** [loc] is the pair [[lat, lng]] found under
    [address['geometry']['location']]. *)
Definition located (address loc : object) : Prop :=
  exists geometry location lat lng,
    getitem address "geometry" = Ok geometry /\
    getitem geometry "location" = Ok location /\
    getitem location "lat" = Ok lat /\
    getitem location "lng" = Ok lng /\
    loc = PyList [lat; lng].

(** [leg['distance']['value']] *)
Definition leg_distance (leg : object) : outcome object :=
  d <- getitem leg "distance" ;;
  getitem d "value".

(** The meters of a leg. *)
Definition leg_meters (leg : object) (v : Z) : Prop :=
  leg_distance leg = Ok (PyInt v).

(** The direction has a ['legs'] entry that can be iterated, and its legs
    carry the integers [vs], in order. *)
Definition legs_values (carries : object -> Z -> Prop) (direction : dict)
    (vs : list Z) : Prop :=
  exists legs_obj legs,
    dict_get direction "legs" = Some legs_obj /\
    iter legs_obj = Ok legs /\
    Forall2 carries legs vs.

(** The seconds of a leg: under ['duration_in_traffic'] when the leg has
    that key, whatever its ['duration'] says, and under ['duration']
    otherwise. *)
Definition leg_seconds (leg : object) (v : Z) : Prop :=
  exists l,
    leg = PyDict l /\
    match dict_get l "duration_in_traffic" with
    | Some traffic => getitem traffic "value" = Ok (PyInt v)
    | None =>
        exists duration,
          dict_get l "duration" = Some duration /\
          getitem duration "value" = Ok (PyInt v)
    end.

Definition total (vs : list Z) : Z := List.fold_right Z.add 0 vs.

Definition sample_routes : list dict :=
  [ [("summary"%string, PyStr (str_of "MEX 57"));
     ("legs"%string,
      PyList
        [ PyDict [("distance"%string, PyDict [("value"%string, PyInt 1200)]);
                  ("duration"%string, PyDict [("value"%string, PyInt 90)])];
          PyDict [("distance"%string, PyDict [("value"%string, PyInt 800)]);
                  ("duration"%string, PyDict [("value"%string, PyInt 60)]);
                  ("duration_in_traffic"%string,
                   PyDict [("value"%string, PyInt 75)])] ])];
    [("summary"%string, PyStr (str_of "no legs"))];
    [("legs"%string, PyList [])] ].

(** A matrix all of whose rows have [N] cells. *)
Definition width (N : nat) (matrix : list (list object)) : Prop :=
  Forall (fun row => List.length row = N) matrix.

(** What one element of a row leaves in the matrix [after] the call, where
    [before] is the matrix the loops started from. *)
Definition element_done (cell : dict -> outcome object)
    (before after : list (list object)) (i j : nat) (element : object) : Prop :=
  exists d status,
    element = PyDict d /\ dict_get d "status" = Some status /\
    if eq_str status (str_of "OK")
    then exists v, cell d = Ok v /\ cell_at after i j = Some v
    else cell_at after i j = cell_at before i j.

(** What one row of the response leaves in the matrix. *)
Definition row_done (cell : dict -> outcome object)
    (before after : list (list object)) (i : nat) (row : object) : Prop :=
  exists elements_obj elements,
    getitem row "elements" = Ok elements_obj /\
    iter elements_obj = Ok elements /\
    forall j element,
      nth_error elements j = Some element ->
      element_done cell before after i j element.

(** An element the loops can process: a dictionary with a ['status'], and
    with the value the cell expression needs when the status is 'OK'. *)
Definition well_formed_element (cell : dict -> outcome object)
    (element : object) : Prop :=
  exists d status,
    element = PyDict d /\ dict_get d "status" = Some status /\
    (eq_str status (str_of "OK") = true -> exists v, cell d = Ok v).

Definition well_formed_row (cell : dict -> outcome object) (row : object) : Prop :=
  exists elements_obj elements,
    getitem row "elements" = Ok elements_obj /\
    iter elements_obj = Ok elements /\
    Forall (well_formed_element cell) elements.

Definition sample_element (status : string) (meters seconds : Z) : object :=
  PyDict [("status"%string, PyStr (str_of status));
          ("distance"%string, PyDict [("value"%string, PyInt meters)]);
          ("duration"%string, PyDict [("value"%string, PyInt seconds)])].

Definition sample_matrix_rows : list object :=
  [ PyDict [("elements"%string,
             PyList [sample_element "OK" 0 0; sample_element "OK" 1500 120])];
    PyDict [("elements"%string,
             PyList [sample_element "NOT_FOUND" 0 0; sample_element "OK" 0 0])] ].

Definition sample_matrix_response : dict :=
  [("status"%string, PyStr (str_of "OK"));
   ("rows"%string, PyList sample_matrix_rows)].

(** The same response with a third element in its second row. *)
Definition ragged_matrix_response : dict :=
  [("rows"%string,
    PyList
      [ PyDict [("elements"%string,
                 PyList [sample_element "OK" 0 0; sample_element "OK" 1500 120])];
        PyDict [("elements"%string,
                 PyList [sample_element "OK" 1500 120; sample_element "OK" 0 0;
                         sample_element "OK" 900 60])] ])].

(** What the returned matrix holds for the element at row [i], column [j]
    of the response: the element is a dictionary with a ['status']; if the
    status is 'OK' the cell holds the value of the cell expression, and
    otherwise the cell, if the matrix has it, holds [None]. *)
Definition cell_filled (cell : dict -> outcome object)
    (matrix : list (list object)) (i j : nat) (element : object) : Prop :=
  exists d status,
    element = PyDict d /\ dict_get d "status" = Some status /\
    if eq_str status (str_of "OK")
    then exists v, cell d = Ok v /\ cell_at matrix i j = Some v
    else forall v, cell_at matrix i j = Some v -> v = PyNone.

Definition sample_route_without_value : list dict :=
  [ [("legs"%string,
      PyList
        [ PyDict [("distance"%string, PyDict [("value"%string, PyInt 1200)]);
                  ("duration"%string, PyDict [("value"%string, PyInt 90)])];
          PyDict [("distance"%string, PyDict [("value"%string, PyNone)]);
                  ("duration"%string, PyDict [("value"%string, PyNone)])] ])] ].

(** * Properties *)

(** ** The outcome monad *)

Lemma bind_Ok {A B : Type} (a : A) (k : A -> outcome B) : bind (Ok a) k = k a.
Proof. reflexivity. Qed.

Lemma bind_Raise {A B : Type} (e : exception) (k : A -> outcome B) :
  bind (Raise e) k = Raise e.
Proof. reflexivity. Qed.

(** Case analysis on a call that is followed by [;;]: when it raises, both
    sides of the goal raise the same exception. *)
Tactic Notation "ok_or_raise" constr(call) ident(a) :=
  destruct call as [a|?]; simpl; [|reflexivity].

(** ** Bit-level facts about one chunk *)

Lemma low5_range (v : Z) : 0 <= Z.land v 31 < 32.
Proof.
  change 31 with (Z.ones 5). rewrite Z.land_ones by lia.
  apply Z.mod_pos_bound. lia.
Qed.

Lemma continuation_chunk (v : Z) : Z.lor (Z.land v 31) 32 = Z.land v 31 + 32.
Proof.
  rewrite <- (Z.add_lor_land (Z.land v 31) 32).
  rewrite <- Z.land_assoc. change (Z.land 31 32) with 0.
  rewrite Z.land_0_r. lia.
Qed.

Lemma continuation_payload (v : Z) :
  Z.land (Z.lor (Z.land v 31) 32) 31 = Z.land v 31.
Proof.
  rewrite Z.land_lor_distr_l, <- Z.land_assoc.
  change (Z.land 31 31) with 31. change (Z.land 32 31) with 0.
  apply Z.lor_0_r.
Qed.

Lemma final_payload (v : Z) : 0 <= v < 32 -> Z.land v 31 = v.
Proof.
  intros H. change 31 with (Z.ones 5). rewrite Z.land_ones by lia.
  apply Z.mod_small. lia.
Qed.

(** The low five bits and the rest, put back at their places, are [v]. *)
Lemma low5_recompose (v : Z) :
  Z.lor (Z.land v 31) (Z.shiftl (Z.shiftr v 5) 5) = v.
Proof.
  apply Z.bits_inj'. intros n Hn.
  rewrite Z.lor_spec, Z.land_spec.
  destruct (Z.ltb_spec n 5) as [Hlt|Hge].
  - rewrite Z.shiftl_spec_low by lia.
    change 31 with (Z.ones 5). rewrite Z.ones_spec_low by lia.
    rewrite andb_true_r, orb_false_r. reflexivity.
  - rewrite Z.shiftl_spec by lia. rewrite Z.shiftr_spec by lia.
    change 31 with (Z.ones 5). rewrite Z.ones_spec_high by lia.
    rewrite andb_false_r. simpl. f_equal. lia.
Qed.

Lemma chunk_recompose (v shift : Z) :
  0 <= shift ->
  Z.lor (Z.shiftl (Z.land v 31) shift) (Z.shiftl (Z.shiftr v 5) (shift + 5))
  = Z.shiftl v shift.
Proof.
  intros Hs.
  replace (shift + 5) with (5 + shift) by lia.
  rewrite <- (Z.shiftl_shiftl _ 5 shift) by lia.
  rewrite <- Z.shiftl_lor. rewrite low5_recompose. reflexivity.
Qed.

(** ** [_split_into_chunks] *)

(** The loop, as the source writes it. *)
Lemma split_into_chunks_unfold (value : Z) :
  _split_into_chunks value =
  if value >=? 32
  then Z.lor (Z.land value 31) 32 :: _split_into_chunks (Z.shiftr value 5)
  else [value].
Proof.
  rewrite _split_into_chunks_equation_1.
  unfold _split_into_chunks_unfold_clause_1.
  destruct (Z_ge_dec value 32) as [H|H]; destruct (Z.geb_spec value 32); (reflexivity || lia).
Qed.

Lemma shiftr5_nonneg (v : Z) : 0 <= v -> 0 <= Z.shiftr v 5.
Proof. intros H. apply Z.shiftr_nonneg. exact H. Qed.

Lemma shiftr5_lt (v : Z) : 32 <= v -> Z.shiftr v 5 < v.
Proof.
  intros H. rewrite Z.shiftr_div_pow2 by lia.
  apply Z.div_lt; lia.
Qed.

(** Induction along the loop: from [v >> 5] to [v]. *)
Lemma chunks_ind (P : Z -> Prop) :
  (forall v, 0 <= v < 32 -> P v) ->
  (forall v, 32 <= v -> P (Z.shiftr v 5) -> P v) ->
  forall v, 0 <= v -> P v.
Proof.
  intros Hlast Hstep v Hv. revert v Hv.
  apply (Zlt_0_ind (fun v => P v)). intros v IH Hv.
  destruct (Z_lt_dec v 32) as [Hlt|Hge].
  - apply Hlast. lia.
  - apply Hstep; [lia|]. apply IH. split.
    + apply shiftr5_nonneg. exact Hv.
    + apply shiftr5_lt. lia.
Qed.

Lemma split_into_chunks_range (v : Z) :
  0 <= v -> Forall (fun chunk => 0 <= chunk <= 63) (_split_into_chunks v).
Proof.
  revert v. apply (chunks_ind (fun v => Forall _ (_split_into_chunks v))).
  - intros v Hv. rewrite split_into_chunks_unfold.
    destruct (Z.geb_spec v 32); [lia|]. constructor; [lia|constructor].
  - intros v Hv IH. rewrite split_into_chunks_unfold.
    destruct (Z.geb_spec v 32); [|lia]. constructor; [|exact IH].
    rewrite continuation_chunk. pose proof (low5_range v). lia.
Qed.

(** ** Sign folding *)

Lemma fold_sign_nonneg (d : Z) : 0 <= fold_sign d.
Proof.
  unfold fold_sign. rewrite Z.shiftl_mul_pow2 by lia.
  destruct (Z.ltb_spec d 0); unfold Z.lnot; lia.
Qed.

Lemma low_bit (r : Z) : Z.land r 1 = r mod 2.
Proof. change (Z.land r 1) with (Z.land r (Z.ones 1)). apply Z.land_ones. lia. Qed.

Lemma unfold_fold_sign (d : Z) : unfold_sign (fold_sign d) = d.
Proof.
  unfold unfold_sign, fold_sign. rewrite low_bit.
  rewrite !Z.shiftr_div_pow2, !Z.shiftl_mul_pow2 by lia.
  change (2 ^ 1) with 2.
  destruct (Z.ltb_spec d 0) as [Hneg|Hpos]; unfold Z.lnot.
  - replace (Z.pred (- (d * 2))) with (1 + (- d - 1) * 2) by lia.
    rewrite Z.mod_add, Z.div_add by lia.
    change (1 mod 2) with 1. change (1 / 2) with 0. simpl. lia.
  - rewrite Z.mod_mul, Z.div_mul by lia. simpl. reflexivity.
Qed.

Lemma encode_value_chunks (d : Z) :
  _encode_value d = List.map (fun chunk => chr (chunk + 63)) (_split_into_chunks (fold_sign d)).
Proof. reflexivity. Qed.

(** Every character [_encode_value] yields is in 63..126. *)
Lemma encode_value_printable (d : Z) :
  Forall (fun c => 63 <= ord c <= 126) (_encode_value d).
Proof.
  rewrite encode_value_chunks. apply Forall_map.
  eapply Forall_impl; [|apply split_into_chunks_range, fold_sign_nonneg].
  intros chunk H. unfold ord, chr. cbv beta in *. lia.
Qed.

(** ** The gathering loop reads what the chunking loop wrote *)

Lemma gather_chunks (v : Z) :
  0 <= v ->
  forall rest shift result,
    0 <= shift ->
    gather (List.map (fun chunk => chr (chunk + 63)) (_split_into_chunks v) ++ rest)
           shift result
    = Ok (Z.lor result (Z.shiftl v shift), rest).
Proof.
  revert v.
  apply (chunks_ind (fun v => forall rest shift result, 0 <= shift -> _ = _)).
  - intros v Hv rest shift result Hs.
    rewrite split_into_chunks_unfold.
    destruct (Z.geb_spec v 32); [lia|]. simpl.
    unfold ord, chr. replace (v + 63 - 63) with v by lia.
    destruct (Z.geb_spec v 32); [lia|].
    rewrite final_payload by lia. reflexivity.
  - intros v Hv IH rest shift result Hs.
    rewrite split_into_chunks_unfold.
    destruct (Z.geb_spec v 32); [|lia]. simpl.
    unfold ord, chr.
    replace (Z.lor (Z.land v 31) 32 + 63 - 63) with (Z.lor (Z.land v 31) 32) by lia.
    rewrite continuation_payload.
    destruct (Z.geb_spec (Z.lor (Z.land v 31) 32) 32) as [_|Hlt].
    + rewrite IH by lia. rewrite <- Z.lor_assoc, chunk_recompose by lia.
      reflexivity.
    + rewrite continuation_chunk in Hlt. pose proof (low5_range v). lia.
Qed.

Lemma decode_value_unfold_sign (rest : str) :
  decode_value rest =
  '(result, rest') <- gather rest 0 0 ;; Ok (unfold_sign result, rest').
Proof.
  unfold decode_value, unfold_sign.
  destruct (gather rest 0 0) as [[r s]|e]; simpl; [|reflexivity].
  destruct (negb (Z.land r 1 =? 0)); reflexivity.
Qed.

Lemma decode_encode_value (d : Z) (rest : str) :
  decode_value (_encode_value d ++ rest) = Ok (d, rest).
Proof.
  rewrite decode_value_unfold_sign, encode_value_chunks.
  rewrite gather_chunks by (try apply fold_sign_nonneg; lia).
  rewrite bind_Ok. cbv beta iota zeta.
  rewrite Z.shiftl_0_r, Z.lor_0_l, unfold_fold_sign. reflexivity.
Qed.

Lemma encode_value_nonempty (d : Z) : _encode_value d <> [].
Proof.
  rewrite encode_value_chunks, split_into_chunks_unfold.
  destruct (fold_sign d >=? 32); discriminate.
Qed.

(** ** The encoder, as scaling followed by writing deltas *)

Lemma encode_loop_result (coords : list coordinate) :
  forall prev_lat prev_lng result,
    encode_loop coords prev_lat prev_lng result =
    tail <- encode_loop coords prev_lat prev_lng [] ;; Ok (result ++ tail).
Proof.
  induction coords as [|[x y] coords IH]; intros prev_lat prev_lng result; simpl.
  - rewrite app_nil_r. reflexivity.
  - ok_or_raise (scaled y) lat.
    ok_or_raise (scaled x) lng.
    rewrite IH. rewrite (IH _ _ [_; _]).
    ok_or_raise (encode_loop coords lat lng []) tail.
    rewrite <- !app_assoc. reflexivity.
Qed.

Lemma encode_loop_emit (coords : list coordinate) :
  forall prev_lat prev_lng,
    (result <- encode_loop coords prev_lat prev_lng [] ;; Ok (List.concat result)) =
    (ks <- scale_all coords ;; Ok (emit_deltas ks prev_lng prev_lat)).
Proof.
  induction coords as [|[x y] coords IH]; intros prev_lat prev_lng; simpl.
  - reflexivity.
  - ok_or_raise (scaled y) lat.
    ok_or_raise (scaled x) lng.
    rewrite encode_loop_result. specialize (IH lat lng).
    destruct (encode_loop coords lat lng []) as [tail|e];
      destruct (scale_all coords) as [ks|e']; simpl in *; try congruence.
    inversion IH as [H]. rewrite H. reflexivity.
Qed.

Lemma encode_coords_emit (coords : list coordinate) :
  encode_coords coords = (ks <- scale_all coords ;; Ok (emit_deltas ks 0 0)).
Proof. apply encode_loop_emit. Qed.

(** ** The decoding loop *)

(** One iteration of [while index < len(polyline_str)]. *)
Lemma decode_loop_step (rest : str) (lat lng : Z) (coordinates : list coordinate)
    (changes : changes_dict) :
  rest <> [] ->
  decode_loop rest lat lng coordinates changes =
  '(changes', rest') <- for_units [latitude; longitude] rest changes ;;
  lat_deg <- truediv_int_float (lat + changes_get changes' latitude) 100000 ;;
  lng_deg <- truediv_int_float (lng + changes_get changes' longitude) 100000 ;;
  decode_loop rest' (lat + changes_get changes' latitude)
    (lng + changes_get changes' longitude)
    (coordinates ++ [(lat_deg, lng_deg)]) changes'.
Proof.
  destruct rest as [|c rest0]; [congruence|]. intros _.
  rewrite decode_loop_equation_2.
  generalize (inspect (for_units [latitude; longitude] (c :: rest0) changes)).
  intros [b Hb].
  destruct b as [[changes' rest']|e]; unfold decode_loop_unfold_clause_2;
    rewrite Hb; reflexivity.
Qed.

Lemma decode_loop_done (lat lng : Z) (coordinates : list coordinate)
    (changes : changes_dict) :
  decode_loop [] lat lng coordinates changes = Ok coordinates.
Proof. apply decode_loop_equation_1. Qed.

Lemma for_units_encoded (a b : Z) (rest : str) (changes : changes_dict) :
  for_units [latitude; longitude] (_encode_value a ++ _encode_value b ++ rest) changes
  = Ok ({| at_latitude := a; at_longitude := b |}, rest).
Proof.
  simpl. rewrite decode_encode_value. simpl.
  rewrite decode_encode_value. reflexivity.
Qed.

(** Decoding what [emit_deltas] wrote gives the running integers back. *)
Lemma decode_emit_deltas (ks : list (Z * Z)) :
  forall first second coordinates changes,
    decode_loop (emit_deltas ks first second) first second coordinates changes =
    (cs <- unscale_all ks ;; Ok (coordinates ++ cs)).
Proof.
  induction ks as [|[a b] ks IH]; intros first second coordinates changes.
  - simpl. rewrite decode_loop_done, app_nil_r. reflexivity.
  - cbn [emit_deltas unscale_all unscaled_pair].
    rewrite decode_loop_step.
    2:{ intros H. apply app_eq_nil in H. destruct H as [H _].
        exact (encode_value_nonempty _ H). }
    rewrite for_units_encoded. rewrite bind_Ok. cbv beta iota zeta.
    cbn [changes_get at_latitude at_longitude].
    replace (first + (a - first)) with a by lia.
    replace (second + (b - second)) with b by lia.
    ok_or_raise (truediv_int_float a 100000) lat_deg.
    ok_or_raise (truediv_int_float b 100000) lng_deg.
    rewrite IH.
    ok_or_raise (unscale_all ks) cs.
    rewrite <- app_assoc. reflexivity.
Qed.

Lemma decode_polyline_emit (ks : list (Z * Z)) :
  decode_polyline (emit_deltas ks 0 0) = unscale_all ks.
Proof.
  unfold decode_polyline. rewrite decode_emit_deltas.
  destruct (unscale_all ks); reflexivity.
Qed.

(** Decoding an encoding: each coordinate is scaled and scaled back. *)
Lemma decode_encode_coords (coords : list coordinate) :
  (text <- encode_coords coords ;; decode_polyline text) =
  (ks <- scale_all coords ;; unscale_all ks).
Proof.
  rewrite encode_coords_emit.
  ok_or_raise (scale_all coords) ks.
  apply decode_polyline_emit.
Qed.

(** ** Coordinates that the scaler reproduces *)

Lemma survives_inv (v : float) :
  survives v = true ->
  exists k v', scaled v = Ok k /\ truediv_int_float k 100000 = Ok v' /\
               float_eq v' v = true.
Proof.
  unfold survives.
  destruct (scaled v) as [k|e]; [|discriminate].
  destruct (truediv_int_float k 100000) as [v'|e] eqn:U; [|discriminate].
  intros H. exists k, v'. repeat split; assumption.
Qed.

Lemma rescales_inv (v : float) :
  rescales v = true ->
  exists k v', scaled v = Ok k /\ truediv_int_float k 100000 = Ok v' /\
               scaled v' = Ok k.
Proof.
  unfold rescales.
  destruct (scaled v) as [k|e]; [|discriminate].
  destruct (truediv_int_float k 100000) as [v'|e] eqn:U; [|discriminate].
  destruct (scaled v') as [k'|e] eqn:R; [|discriminate].
  intros H. apply Z.eqb_eq in H. subst k'. exists k, v'.
  repeat split; assumption.
Qed.

Lemma scale_unscale_survivors (seq : list coordinate) :
  forallb (fun c => survives (fst c) && survives (snd c)) seq = true ->
  exists ks out,
    scale_all seq = Ok ks /\ unscale_all ks = Ok out /\
    coordinates_eq out seq = true.
Proof.
  induction seq as [|[x y] seq IH]; simpl; intros H.
  - exists [], []. auto.
  - apply andb_prop in H. destruct H as [Hxy Hseq].
    apply andb_prop in Hxy. destruct Hxy as [Hx Hy].
    destruct (survives_inv _ Hx) as (kx & x' & Sx & Ux & Ex).
    destruct (survives_inv _ Hy) as (ky & y' & Sy & Uy & Ey).
    destruct (IH Hseq) as (ks & out & Sks & Uks & Eks).
    exists ((kx, ky) :: ks), ((x', y') :: out).
    rewrite Sy, Sx, Sks. simpl. rewrite Ux, Uy, Uks. simpl.
    unfold coordinate_eq. simpl. rewrite Ex, Ey, Eks. auto.
Qed.

Lemma scale_unscale_rescalers (seq : list coordinate) :
  forallb (fun c => rescales (fst c) && rescales (snd c)) seq = true ->
  exists ks cs,
    scale_all seq = Ok ks /\ unscale_all ks = Ok cs /\ scale_all cs = Ok ks.
Proof.
  induction seq as [|[x y] seq IH]; simpl; intros H.
  - exists [], []. auto.
  - apply andb_prop in H. destruct H as [Hxy Hseq].
    apply andb_prop in Hxy. destruct Hxy as [Hx Hy].
    destruct (rescales_inv _ Hx) as (kx & x' & Sx & Ux & Rx).
    destruct (rescales_inv _ Hy) as (ky & y' & Sy & Uy & Ry).
    destruct (IH Hseq) as (ks & cs & Sks & Uks & Rks).
    exists ((kx, ky) :: ks), ((x', y') :: cs).
    rewrite Sy, Sx, Sks. simpl. rewrite Ux, Uy, Uks. simpl.
    rewrite Ry, Rx, Rks. auto.
Qed.

(** ** C1: the round trip *)

(** C1, as stated, fails.  The coordinate 0.00007 is a value rounded to 5
    decimal places (it is [7 / 100000.0]); [int(0.00007 * 1e5)] is 6, because
    the binary64 product is 6.999999999999999, so the encoder writes 6 and
    the decoder returns 6e-05. *)
Lemma round_trip_loses_7e_5 :
  Spec.five_decimals 7 = Ok 0.00007%float /\
  scaled 0.00007 = Ok 6 /\
  (text <- encode_coords [(0.00007, 0)%float] ;; decode_polyline text)
    = Ok [(0.00006, 0)%float] /\
  coordinates_eq [(0.00006, 0)%float] [(0.00007, 0)%float] = false.
Proof. repeat split; vm_compute; reflexivity. Qed.

(** C1 (amended): for every coordinate sequence whose values [v] all satisfy
    [int(v * 1e5) / 100000.0 == v], the encoder returns a string and the
    decoder, applied to it, returns a sequence equal to the original. *)
Theorem decode_encode_round_trip (seq : list coordinate) :
  forallb (fun c => survives (fst c) && survives (snd c)) seq = true ->
  exists text out,
    encode_coords seq = Ok text /\ decode_polyline text = Ok out /\
    coordinates_eq out seq = true.
Proof.
  intros H.
  destruct (scale_unscale_survivors seq H) as (ks & out & Sks & Uks & E).
  exists (emit_deltas ks 0 0), out.
  rewrite encode_coords_emit, Sks, decode_polyline_emit. auto.
Qed.

Lemma decode_encode_round_trip_witness :
  forallb (fun c => survives (fst c) && survives (snd c)) known_vector = true /\
  exists text out,
    encode_coords known_vector = Ok text /\ decode_polyline text = Ok out /\
    coordinates_eq out known_vector = true.
Proof.
  split; [vm_compute; reflexivity|].
  apply (decode_encode_round_trip known_vector). vm_compute. reflexivity.
Defined.

(** The two round trips the document lists by name: a single (0.0, 0.0),
    and a second point with strictly smaller latitude and longitude. *)
Example round_trip_origin :
  (text <- encode_coords [(0, 0)%float] ;; decode_polyline text) = Ok [(0, 0)%float].
Proof. vm_compute. reflexivity. Qed.

Example round_trip_negative_deltas :
  (text <- encode_coords [(40.7, -120.2); (38.5, -120.95)]%float ;; decode_polyline text)
  = Ok [(40.7, -120.2); (38.5, -120.95)]%float.
Proof. vm_compute. reflexivity. Qed.

(** ** C2: the known vector *)

(** C2: encoding [(38.5, -120.2), (40.7, -120.95), (43.252, -126.453)] gives
    the string "_p~iF~ps|U_ulLnnqC_mqNvxq`@", and decoding that string gives
    exactly those three coordinates. *)
Theorem known_vector_both_ways :
  encode_coords known_vector = Ok known_text /\
  decode_polyline known_text = Ok known_vector.
Proof. split; vm_compute; reflexivity. Qed.

(** ** C3: which delta is written first *)

Lemma encode_from_latitude_first (coords : list coordinate) :
  forall prev_latitude prev_longitude,
    Spec.encode_from Spec.latitude_first coords prev_latitude prev_longitude =
    (ks <- scale_all coords ;; Ok (emit_deltas ks prev_latitude prev_longitude)).
Proof.
  induction coords as [|[x y] coords IH]; intros prev_latitude prev_longitude; simpl.
  - reflexivity.
  - ok_or_raise (scaled y) ky.
    ok_or_raise (scaled x) kx.
    rewrite IH.
    ok_or_raise (scale_all coords) ks.
    rewrite <- app_assoc. reflexivity.
Qed.

(** C3, as stated, fails.  For the coordinate (latitude 0.0, longitude 1.0)
    the longitude delta 100000 is written "_ibE" and the latitude delta 0 is
    written "?"; the encoder returns "?_ibE", latitude first, where writing
    the longitude first would give "_ibE?". *)
Lemma longitude_is_not_written_first :
  encode_coords [(0, 1)%float] = Ok (str_of "?_ibE") /\
  Spec.encode Spec.longitude_first [(0, 1)%float] = Ok (str_of "_ibE?") /\
  encode_coords [(0, 1)%float] <> Spec.encode Spec.longitude_first [(0, 1)%float].
Proof. repeat split; vm_compute; (reflexivity || discriminate). Qed.

(** C3 (amended): for every input sequence and every coordinate in it,
    [encode_coords] writes the characters of the delta of the first tuple
    component (the latitude, in the documented (latitude, longitude) order)
    before the characters of the delta of the second component (the
    longitude); the variable the source calls [d_lng] holds the former. *)
Theorem encode_coords_latitude_first (coords : list coordinate) :
  encode_coords coords = Spec.encode Spec.latitude_first coords.
Proof.
  unfold Spec.encode.
  rewrite encode_coords_emit, encode_from_latitude_first. reflexivity.
Qed.

(** ** C4: input that ends inside an integer *)

Lemma truediv_raises (n : Z) (d : float) (e : exception) :
  truediv_int_float n d = Raise e -> e = OverflowError.
Proof.
  unfold truediv_int_float, float_of_int.
  destruct (PrimFloat.is_infinity _); simpl; intros H; inversion H; reflexivity.
Qed.

(** Input whose last character [c] has the continuation bit set. *)
Section EndsMidInteger.

Variable c : char.
Hypothesis continuation : 32 <= ord c - 63.

(** The gathering loop either runs off the end, or stops earlier and leaves
    input that still ends with [c]. *)
Lemma gather_before_continuation (front : str) :
  forall shift result,
    gather (front ++ [c]) shift result = Raise IndexError \/
    exists v front', gather (front ++ [c]) shift result = Ok (v, front' ++ [c]).
Proof.
  induction front as [|a front IH]; intros shift result; simpl.
  - destruct (Z.geb_spec (ord c - 63) 32); [|lia]. left. reflexivity.
  - destruct (ord a - 63 >=? 32).
    + apply IH.
    + right. eauto.
Qed.

Lemma decode_value_before_continuation (front : str) :
  decode_value (front ++ [c]) = Raise IndexError \/
  exists v front', decode_value (front ++ [c]) = Ok (v, front' ++ [c]).
Proof.
  rewrite decode_value_unfold_sign.
  destruct (gather_before_continuation front 0 0) as [H|(v & front' & H)];
    rewrite H; simpl; eauto.
Qed.

Lemma for_units_before_continuation (units : list unit_key) :
  forall front changes,
    for_units units (front ++ [c]) changes = Raise IndexError \/
    exists changes' front',
      for_units units (front ++ [c]) changes = Ok (changes', front' ++ [c]).
Proof.
  induction units as [|u units IH]; intros front changes; simpl.
  - right. eauto.
  - destruct (decode_value_before_continuation front) as [H|(v & front' & H)];
      rewrite H; simpl; [left; reflexivity|apply IH].
Qed.

(** The outer loop never reaches its exit test with the input used up, so
    it never returns: by induction on a bound [n] on the input left. *)
Lemma decode_loop_before_continuation (n : nat) :
  forall front lat lng coordinates changes,
    (List.length front < n)%nat ->
    decode_loop (front ++ [c]) lat lng coordinates changes = Raise IndexError \/
    decode_loop (front ++ [c]) lat lng coordinates changes = Raise OverflowError.
Proof.
  induction n as [|n IH]; intros front lat lng coordinates changes Hn.
  - lia.
  - rewrite decode_loop_step by (destruct front; discriminate).
    destruct (for_units_before_continuation [latitude; longitude] front changes)
      as [H|(changes' & front' & H)]; rewrite H.
    + left. reflexivity.
    + apply for_two_units_shorter in H. rewrite !length_app in H. simpl in H.
      rewrite bind_Ok. cbv beta iota zeta.
      destruct (truediv_int_float (lat + _) _) as [lat_deg|e] eqn:Dlat.
      2:{ right. apply truediv_raises in Dlat. subst e. reflexivity. }
      rewrite bind_Ok.
      destruct (truediv_int_float (lng + _) _) as [lng_deg|e] eqn:Dlng.
      2:{ right. apply truediv_raises in Dlng. subst e. reflexivity. }
      rewrite bind_Ok. apply IH. lia.
Qed.


End EndsMidInteger.


(** An earlier coordinate whose integer is too large for a float raises
    [OverflowError] before the end of the input is reached. *)
Example overflow_before_the_truncated_end :
  decode_polyline (List.repeat 126 210 ++ str_of "??_") = Raise OverflowError.
Proof. vm_compute. reflexivity. Qed.



(** ** C5: re-encoding a decoding *)

(** C5, as stated, fails.  [encode_coords([(0.000075, 0.0)])] is "M?" (the
    scaled integer is 7); decoding it gives 7e-05, and [int(7e-05 * 1e5)] is
    6, so encoding the decoding gives "K?". *)
Lemma reencoding_changes_the_text :
  encode_coords [(0.000075, 0)%float] = Ok (str_of "M?") /\
  (cs <- decode_polyline (str_of "M?") ;; encode_coords cs) = Ok (str_of "K?") /\
  str_of "K?" <> str_of "M?".
Proof. repeat split; vm_compute; (reflexivity || discriminate). Qed.

(** C5 (amended): for every string [t = encode_coords(seq)] such that each
    value [v] of [seq] satisfies
    [int((int(v * 1e5) / 100000.0) * 1e5) == int(v * 1e5)], the decoder
    returns a sequence for [t], and encoding that sequence gives [t]. *)
Theorem encode_decode_stable (seq : list coordinate) (t : str) :
  encode_coords seq = Ok t ->
  forallb (fun c => rescales (fst c) && rescales (snd c)) seq = true ->
  exists cs, decode_polyline t = Ok cs /\ encode_coords cs = Ok t.
Proof.
  intros Ht H.
  destruct (scale_unscale_rescalers seq H) as (ks & cs & Sks & Uks & Rks).
  rewrite encode_coords_emit, Sks in Ht. simpl in Ht. inversion Ht; subst t.
  exists cs. rewrite decode_polyline_emit, encode_coords_emit, Rks. auto.
Qed.

Lemma encode_decode_stable_witness :
  encode_coords known_vector = Ok known_text /\
  forallb (fun c => rescales (fst c) && rescales (snd c)) known_vector = true /\
  exists cs, decode_polyline known_text = Ok cs /\ encode_coords cs = Ok known_text.
Proof.
  split; [vm_compute; reflexivity|].
  split; [vm_compute; reflexivity|].
  apply (encode_decode_stable known_vector known_text); vm_compute; reflexivity.
Defined.

(** ** C6: one integer, written and read back *)

(** C6: for every integer [d], the gathering loop applied to the characters
    of [_encode_value(d)] (followed by any further input) stops exactly at
    their end with the sign-folded value, the inverse sign fold of that
    value is [d], and so one pass of the decoder's per-integer code yields
    [d] and leaves the further input untouched. *)
Theorem varint_round_trip (d : Z) (rest : str) :
  gather (_encode_value d ++ rest) 0 0 = Ok (fold_sign d, rest) /\
  unfold_sign (fold_sign d) = d /\
  decode_value (_encode_value d ++ rest) = Ok (d, rest).
Proof.
  split; [|split].
  - rewrite encode_value_chunks.
    rewrite gather_chunks by (try apply fold_sign_nonneg; lia).
    rewrite Z.shiftl_0_r, Z.lor_0_l. reflexivity.
  - apply unfold_fold_sign.
  - apply decode_encode_value.
Qed.

Example varint_minus_one : _encode_value (-1) = str_of "@".
Proof. reflexivity. Qed.

Example varint_large_negative :
  decode_value (_encode_value (-12020000) ++ str_of "rest") = Ok (-12020000, str_of "rest").
Proof. vm_compute. reflexivity. Qed.

(** ** C7: the scaled integer *)

Lemma truncate_integer (n : Z) : Spec.truncate (n # 1) = n.
Proof. unfold Spec.truncate. simpl. apply Z.quot_1_r. Qed.

Lemma truncate_dyadic (s : bool) (m : positive) (k : Z) :
  0 <= k ->
  Spec.truncate ((if s then Z.neg m else Z.pos m) # Z.to_pos (2 ^ k)) =
  if s then - Z.shiftr (Z.pos m) k else Z.shiftr (Z.pos m) k.
Proof.
  intros Hk. unfold Spec.truncate. cbn [Qnum Qden].
  assert (Hpow : 0 < 2 ^ k) by (apply Z.pow_pos_nonneg; lia).
  rewrite Z2Pos.id by exact Hpow.
  rewrite Z.shiftr_div_pow2 by exact Hk.
  destruct s.
  - change (Z.neg m) with (- Z.pos m).
    rewrite Z.quot_opp_l by lia.
    rewrite Z.quot_div_nonneg by lia. reflexivity.
  - apply Z.quot_div_nonneg; lia.
Qed.

(** [int(f)] is the real value of [f] truncated toward zero. *)
Lemma int_of_float_truncates (f : float) :
  match Spec.real_of_float f with
  | Some p => int_of_float f = Ok (Spec.truncate p)
  | None => int_of_float f = Raise OverflowError \/ int_of_float f = Raise ValueError
  end.
Proof.
  unfold Spec.real_of_float, int_of_float.
  destruct (Prim2SF f) as [s|s| |s m e]; auto.
  destruct (Z.leb_spec 0 e) as [He|He].
  - rewrite truncate_integer, Z.shiftl_mul_pow2 by exact He.
    destruct s; [change (Z.neg m) with (- Z.pos m)|]; f_equal; lia.
  - rewrite truncate_dyadic by lia. reflexivity.
Qed.

(** What "truncated toward zero" means for [n / d]: the magnitude is
    rounded down and the sign is kept. *)
Lemma truncate_toward_zero (q : Q) :
  Z.abs (Spec.truncate q) * Z.pos (Qden q) <= Z.abs (Qnum q)
    < (Z.abs (Spec.truncate q) + 1) * Z.pos (Qden q) /\
  0 <= Spec.truncate q * Qnum q.
Proof.
  unfold Spec.truncate. destruct q as [n d]. cbn [Qnum Qden].
  assert (Hd : 0 < Z.pos d) by lia.
  assert (Hdiv : forall m, 0 <= m ->
            0 <= m / Z.pos d /\
            m / Z.pos d * Z.pos d <= m < (m / Z.pos d + 1) * Z.pos d).
  { intros m Hm. split; [apply Z.div_pos; lia|].
    pose proof (Z.div_mod m (Z.pos d) ltac:(lia)).
    pose proof (Z.mod_pos_bound m (Z.pos d) Hd). lia. }
  destruct (Z_le_gt_dec 0 n) as [Hn|Hn].
  - rewrite Z.quot_div_nonneg by lia.
    destruct (Hdiv n Hn) as [H0 H1].
    rewrite !Z.abs_eq by lia. split; [exact H1|]. apply Z.mul_nonneg_nonneg; lia.
  - assert (exists m, 0 < m /\ n = - m) as (m & Hm & ->) by (exists (- n); lia).
    rewrite Z.quot_opp_l by lia. rewrite Z.quot_div_nonneg by lia.
    destruct (Hdiv m ltac:(lia)) as [H0 H1].
    rewrite !Z.abs_opp, !Z.abs_eq by lia.
    split; [exact H1|]. rewrite Z.mul_opp_opp. apply Z.mul_nonneg_nonneg; lia.
Qed.

(** [int(v * 1e5)] for any float [v]: the float product truncated toward
    zero; an infinite or NaN product raises instead of giving an integer. *)
Lemma int_of_product_truncates (v : float) :
  match Spec.real_of_float (PrimFloat.mul v 100000) with
  | Some p =>
      scaled v = Ok (Spec.truncate p) /\
      Z.abs (Spec.truncate p) * Z.pos (Qden p) <= Z.abs (Qnum p)
        < (Z.abs (Spec.truncate p) + 1) * Z.pos (Qden p) /\
      0 <= Spec.truncate p * Qnum p
  | None => scaled v = Raise OverflowError \/ scaled v = Raise ValueError
  end.
Proof.
  unfold scaled.
  pose proof (int_of_float_truncates (PrimFloat.mul v 100000)) as H.
  destruct (Spec.real_of_float (PrimFloat.mul v 100000)) as [p|]; [|exact H].
  split; [exact H|apply truncate_toward_zero].
Qed.

(** *** The rounding of the product

    The float product [v * 1e5] is the exact product rounded to 53
    significant bits ([mul_spec], [binary_round_aux]): two shifts of the
    mantissa with a rounding to nearest, ties to even, in between.  While
    the exact product is below [2^53] the shifts never pass the binary
    point, so the rounded product stays between the two integers that
    enclose the exact one. *)

Lemma digits2_log2 (m : positive) :
  Z.pos (digits2_pos m) = Z.log2 (Z.pos m) + 1.
Proof.
  induction m as [m IH|m IH|]; simpl digits2_pos.
  - rewrite Pos2Z.inj_succ, IH. simpl Z.log2. destruct m; simpl; lia.
  - rewrite Pos2Z.inj_succ, IH. simpl Z.log2. destruct m; simpl; lia.
  - reflexivity.
Qed.

Lemma digits2_bound (m : positive) :
  2 ^ (Z.pos (digits2_pos m) - 1) <= Z.pos m.
Proof.
  rewrite digits2_log2. replace (Z.log2 (Z.pos m) + 1 - 1) with (Z.log2 (Z.pos m)) by lia.
  apply Z.log2_spec. lia.
Qed.

Lemma shr_1_m (mrs : shr_record) :
  0 <= shr_m mrs -> shr_m (shr_1 mrs) = shr_m mrs / 2.
Proof.
  destruct mrs as [m r s]. simpl. intros Hm.
  destruct m as [|p|p]; [reflexivity| |lia].
  destruct p as [p|p|]; simpl shr_m.
  - rewrite Pos2Z.inj_xI. apply Z.div_unique with 1; lia.
  - rewrite Pos2Z.inj_xO. apply Z.div_unique with 0; lia.
  - reflexivity.
Qed.

Lemma iter_shr_1_m (p : positive) :
  forall mrs, 0 <= shr_m mrs ->
    shr_m (SpecFloat.iter_pos shr_1 p mrs) = shr_m mrs / 2 ^ Z.pos p.
Proof.
  assert (Hpow : forall q, 0 < 2 ^ Z.pos q) by (intros; apply Z.pow_pos_nonneg; lia).
  induction p as [p IH|p IH|]; intros mrs Hm; simpl SpecFloat.iter_pos.
  - assert (H1 : 0 <= shr_m (shr_1 mrs))
      by (rewrite shr_1_m by exact Hm; apply Z.div_pos; lia).
    assert (H2 : 0 <= shr_m (SpecFloat.iter_pos shr_1 p (shr_1 mrs)))
      by (rewrite IH by exact H1; apply Z.div_pos; [exact H1|apply Hpow]).
    rewrite IH by exact H2. rewrite IH by exact H1. rewrite shr_1_m by exact Hm.
    pose proof (Hpow p) as Hp.
    rewrite !Z.div_div by lia.
    f_equal.
    replace (Z.pos p~1) with (1 + Z.pos p + Z.pos p) by lia.
    rewrite !Z.pow_add_r by lia. rewrite Z.pow_1_r. lia.
  - assert (H2 : 0 <= shr_m (SpecFloat.iter_pos shr_1 p mrs))
      by (rewrite IH by exact Hm; apply Z.div_pos; [exact Hm|apply Hpow]).
    rewrite IH by exact H2. rewrite IH by exact Hm.
    pose proof (Hpow p) as Hp.
    rewrite !Z.div_div by lia.
    f_equal.
    replace (Z.pos p~0) with (Z.pos p + Z.pos p) by lia.
    rewrite !Z.pow_add_r by lia. lia.
  - rewrite shr_1_m by exact Hm. reflexivity.
Qed.

Lemma Zdigits2_bound (m : Z) : 0 < m -> 2 ^ (Zdigits2 m - 1) <= m.
Proof.
  destruct m as [|p|p]; try lia. intros _. apply digits2_bound.
Qed.

Lemma Zdigits2_below (m c : Z) : 0 <= c -> 0 <= m < 2 ^ c -> Zdigits2 m <= c.
Proof.
  intros Hc [Hm Hlt].
  destruct (Z.eq_dec m 0) as [->|Hne]; [simpl; lia|].
  pose proof (Zdigits2_bound m ltac:(lia)) as Hd.
  destruct (Z_le_gt_dec (Zdigits2 m) c) as [|Hgt]; [assumption|exfalso].
  assert (2 ^ c <= 2 ^ (Zdigits2 m - 1)) by (apply Z.pow_le_mono_r; lia).
  lia.
Qed.

Lemma fexp_binary64 (x : Z) : fexp prec emax x = Z.max (x - 53) (-1074).
Proof. reflexivity. Qed.

Lemma shr_record_of_loc_m (m : Z) (l : location) :
  shr_m (shr_record_of_loc m l) = m.
Proof. destruct l as [|[]]; reflexivity. Qed.

Lemma shr_fexp_cases (m e : Z) (l : location) :
  0 <= m ->
  let t := Z.max (Zdigits2 m + e - 53) (-1074) - e in
  (t <= 0 /\ shr_fexp prec emax m e l = (shr_record_of_loc m l, e)) \/
  (0 < t /\ exists mrs, shr_fexp prec emax m e l = (mrs, e + t) /\
                        shr_m mrs = m / 2 ^ t).
Proof.
  intros Hm t. unfold shr_fexp. rewrite fexp_binary64. fold t.
  destruct t as [|p|p]; simpl shr.
  - left. split; [lia|reflexivity].
  - right. split; [lia|]. eexists. split; [reflexivity|].
    rewrite iter_shr_1_m by (rewrite shr_record_of_loc_m; exact Hm).
    rewrite shr_record_of_loc_m. reflexivity.
  - left. split; [lia|reflexivity].
Qed.

Lemma round_nearest_even_near (m : Z) (l : location) :
  round_nearest_even m l = m \/ round_nearest_even m l = m + 1.
Proof.
  destruct l as [|[]]; simpl; auto. destruct (Z.even m); auto.
Qed.

Lemma shift_keeps_bounds (n m e t : Z) :
  0 < t -> e + t <= 0 ->
  n * 2 ^ (- e) <= m <= (n + 1) * 2 ^ (- e) ->
  n * 2 ^ (- (e + t)) <= m / 2 ^ t <= (n + 1) * 2 ^ (- (e + t)).
Proof.
  intros Ht He [Hlo Hhi].
  assert (Hsplit : 2 ^ (- e) = 2 ^ t * 2 ^ (- (e + t)))
    by (rewrite <- Z.pow_add_r by lia; f_equal; lia).
  rewrite Hsplit in Hlo, Hhi.
  assert (Hb : 0 < 2 ^ t) by (apply Z.pow_pos_nonneg; lia).
  split.
  - apply Z.div_le_lower_bound; [exact Hb|]. lia.
  - apply Z.div_le_upper_bound; [exact Hb|]. lia.
Qed.

Lemma shift_keeps_strict_bound (n m e t : Z) :
  0 < t -> e + t <= 0 ->
  m < (n + 1) * 2 ^ (- e) ->
  m / 2 ^ t < (n + 1) * 2 ^ (- (e + t)).
Proof.
  intros Ht He Hhi.
  assert (Hsplit : 2 ^ (- e) = 2 ^ t * 2 ^ (- (e + t)))
    by (rewrite <- Z.pow_add_r by lia; f_equal; lia).
  rewrite Hsplit in Hhi.
  assert (Hb : 0 < 2 ^ t) by (apply Z.pow_pos_nonneg; lia).
  apply Z.div_lt_upper_bound; [exact Hb|]. lia.
Qed.

(** Below [2^53 * 2^(-e)] a mantissa of exponent [e] needs no shift beyond
    exponent 0. *)
Lemma exponent_stays_low (n m e : Z) :
  e <= 0 -> 0 <= n -> n + 1 <= 2 ^ 53 ->
  0 <= m < (n + 1) * 2 ^ (- e) ->
  Z.max (Zdigits2 m + e - 53) (-1074) <= 0.
Proof.
  intros He Hn Hb [Hm Hlt].
  assert (Hp : 0 < 2 ^ (- e)) by (apply Z.pow_pos_nonneg; lia).
  assert (Zdigits2 m <= 53 - e).
  { apply Zdigits2_below; [lia|]. split; [exact Hm|].
    replace (53 - e) with (53 + - e) by lia. rewrite Z.pow_add_r by lia. nia. }
  lia.
Qed.

Lemma shr_fexp_stage (n m e : Z) (l : location) :
  e <= 0 -> 0 <= n -> n + 1 < 2 ^ 53 ->
  n * 2 ^ (- e) <= m <= (n + 1) * 2 ^ (- e) ->
  exists mrs e',
    shr_fexp prec emax m e l = (mrs, e') /\ e' <= 0 /\
    n * 2 ^ (- e') <= shr_m mrs <= (n + 1) * 2 ^ (- e') /\
    (m < (n + 1) * 2 ^ (- e) -> shr_m mrs < (n + 1) * 2 ^ (- e')) /\
    (e' = e -> mrs = shr_record_of_loc m l).
Proof.
  intros He Hn Hb [Hlo Hhi].
  assert (Hp : 0 < 2 ^ (- e)) by (apply Z.pow_pos_nonneg; lia).
  assert (Hm : 0 <= m) by nia.
  pose proof (exponent_stays_low (n + 1) m e He ltac:(lia) ltac:(lia)
                ltac:(split; [exact Hm|nia])) as Hlow.
  destruct (shr_fexp_cases m e l Hm) as [[Ht H]|[Ht [mrs [H Hmrs]]]].
  - exists (shr_record_of_loc m l), e. rewrite shr_record_of_loc_m.
    repeat split; auto.
  - set (t := Z.max (Zdigits2 m + e - 53) (-1074) - e) in *.
    exists mrs, (e + t). rewrite Hmrs.
    assert (Het : e + t <= 0) by (unfold t; lia).
    split; [exact H|]. split; [exact Het|].
    split; [apply shift_keeps_bounds; auto|].
    split; [apply shift_keeps_strict_bound; auto|]. lia.
Qed.

Lemma binary_round_aux_near (s : bool) (P : positive) (E : Z) :
  E <= 0 -> Z.pos P / 2 ^ (- E) + 1 < 2 ^ 53 ->
  let n := Z.pos P / 2 ^ (- E) in
  (binary_round_aux prec emax s (Z.pos P) E loc_Exact = S754_zero s /\ n = 0) \/
  exists m e,
    binary_round_aux prec emax s (Z.pos P) E loc_Exact = S754_finite s m e /\
    e <= 0 /\ n * 2 ^ (- e) <= Z.pos m <= (n + 1) * 2 ^ (- e).
Proof.
  intros HE Hb n. fold n in Hb.
  assert (Hp : 0 < 2 ^ (- E)) by (apply Z.pow_pos_nonneg; lia).
  assert (Hn : 0 <= n) by (apply Z.div_pos; lia).
  assert (Hlo : n * 2 ^ (- E) <= Z.pos P)
    by (unfold n; rewrite Z.mul_comm; apply Z.mul_div_le; exact Hp).
  assert (Hhi : Z.pos P < (n + 1) * 2 ^ (- E)).
  { unfold n. rewrite Z.mul_comm. replace (Z.pos P / 2 ^ (- E) + 1)
      with (Z.succ (Z.pos P / 2 ^ (- E))) by lia.
    apply Z.mul_succ_div_gt. exact Hp. }
  destruct (shr_fexp_stage n (Z.pos P) E loc_Exact HE Hn Hb ltac:(lia))
    as (mrs' & e' & H1 & He' & [Hlo' _] & Hhi' & _).
  specialize (Hhi' Hhi).
  unfold binary_round_aux. rewrite H1.
  set (m1 := round_nearest_even (shr_m mrs') (loc_of_shr_record mrs')).
  assert (Hm1 : n * 2 ^ (- e') <= m1 <= (n + 1) * 2 ^ (- e')).
  { destruct (round_nearest_even_near (shr_m mrs') (loc_of_shr_record mrs'))
      as [H|H]; unfold m1; rewrite H; lia. }
  destruct (shr_fexp_stage n m1 e' loc_Exact He' Hn Hb Hm1)
    as (mrs'' & e'' & H2 & He'' & Hb'' & _ & _).
  rewrite H2.
  assert (Hp'' : 0 < 2 ^ (- e'')) by (apply Z.pow_pos_nonneg; lia).
  destruct (shr_m mrs'') as [|m''|m''] eqn:Hm''.
  - left. split; [reflexivity|nia].
  - right. exists m'', e''.
    replace (e'' <=? emax - prec) with true
      by (symmetry; apply Z.leb_le; change (emax - prec) with 971; lia).
    auto.
  - exfalso. nia.
Qed.

Lemma binary_round_aux_integer (s : bool) (P : positive) (E : Z) :
  0 < E -> Z.pos P * 2 ^ E < 2 ^ 53 ->
  binary_round_aux prec emax s (Z.pos P) E loc_Exact = S754_finite s P E.
Proof.
  intros HE Hb.
  assert (Hd : Zdigits2 (Z.pos P) + E <= 53).
  { pose proof (Zdigits2_bound (Z.pos P) ltac:(lia)) as Hd.
    destruct (Z_le_gt_dec (Zdigits2 (Z.pos P) + E) 53) as [|Hgt]; [assumption|exfalso].
    assert (0 < Zdigits2 (Z.pos P)) by (simpl; lia).
    assert (2 ^ 53 <= 2 ^ (Zdigits2 (Z.pos P) - 1 + E)) by (apply Z.pow_le_mono_r; lia).
    rewrite Z.pow_add_r in * by lia.
    assert (0 < 2 ^ E) by (apply Z.pow_pos_nonneg; lia). nia. }
  assert (H1 : forall l, shr_fexp prec emax (Z.pos P) E l = (shr_record_of_loc (Z.pos P) l, E)).
  { intros l. destruct (shr_fexp_cases (Z.pos P) E l ltac:(lia)) as [[_ H]|[Ht _]];
      [exact H|lia]. }
  unfold binary_round_aux. rewrite H1. simpl shr_record_of_loc.
  simpl loc_of_shr_record. simpl shr_m. simpl round_nearest_even. rewrite H1.
  simpl shr_m.
  assert (0 < Zdigits2 (Z.pos P)) by (simpl; lia).
  replace (E <=? emax - prec) with true
    by (symmetry; apply Z.leb_le; change (emax - prec) with 971; lia).
  reflexivity.
Qed.


Lemma shr_fexp_nonneg (m e : Z) (l : location) :
  0 <= m ->
  exists mrs e', shr_fexp prec emax m e l = (mrs, e') /\ 0 <= shr_m mrs.
Proof.
  intros Hm.
  destruct (shr_fexp_cases m e l Hm) as [[_ H]|[Ht [mrs [H Hmrs]]]].
  - eexists _, _. split; [exact H|]. rewrite shr_record_of_loc_m. exact Hm.
  - eexists _, _. split; [exact H|]. rewrite Hmrs.
    apply Z.div_pos; [exact Hm|]. apply Z.pow_pos_nonneg; lia.
Qed.

Lemma binary_round_aux_not_nan (s : bool) (m e : Z) (l : location) :
  0 <= m -> binary_round_aux prec emax s m e l <> S754_nan.
Proof.
  intros Hm. unfold binary_round_aux.
  destruct (shr_fexp_nonneg m e l Hm) as (mrs' & e' & H1 & Hm'). rewrite H1.
  assert (Hm1 : 0 <= round_nearest_even (shr_m mrs') (loc_of_shr_record mrs')).
  { destruct (round_nearest_even_near (shr_m mrs') (loc_of_shr_record mrs'))
      as [H|H]; rewrite H; lia. }
  destruct (shr_fexp_nonneg _ e' loc_Exact Hm1) as (mrs'' & e'' & H2 & Hm'').
  rewrite H2.
  destruct (shr_m mrs'') as [|p|p]; [discriminate| |lia].
  destruct (e'' <=? emax - prec); discriminate.
Qed.

(** The float [1e5] is [6871947673600000 * 2^-36]. *)
Lemma product_of_finite (v : float) (s : bool) (m : positive) (e : Z) :
  Prim2SF v = S754_finite s m e ->
  Prim2SF (v * 100000) =
  binary_round_aux prec emax s (Z.pos (m * 6871947673600000)) (e + -36) loc_Exact.
Proof.
  intros Hv. rewrite mul_spec, Hv.
  change (Prim2SF 100000) with (S754_finite false 6871947673600000 (-36)).
  unfold SF64mul, SFmul. rewrite xorb_false_r. reflexivity.
Qed.

Lemma product_of_zero (v : float) (s : bool) :
  Prim2SF v = S754_zero s -> Prim2SF (v * 100000) = S754_zero s.
Proof.
  intros Hv. rewrite mul_spec, Hv.
  change (Prim2SF 100000) with (S754_finite false 6871947673600000 (-36)).
  unfold SF64mul, SFmul. rewrite xorb_false_r. reflexivity.
Qed.

Lemma product_is_not_nan (v : float) (q : Q) :
  Spec.real_of_float v = Some q -> Prim2SF (v * 100000) <> S754_nan.
Proof.
  unfold Spec.real_of_float.
  destruct (Prim2SF v) as [s|s| |s m e] eqn:Hv; try discriminate; intros _.
  - rewrite (product_of_zero v s Hv). discriminate.
  - rewrite (product_of_finite v s m e Hv).
    apply binary_round_aux_not_nan. lia.
Qed.

Lemma scale_up_of_finite (v : float) (s : bool) (m : positive) (e : Z) (q : Q) :
  Prim2SF v = S754_finite s m e ->
  Spec.real_of_float v = Some q ->
  let P := Z.pos (m * 6871947673600000) in
  let E := e + -36 in
  let sign := if s then -1 else 1 in
  Spec.scale_up q = sign * (if E <=? 0 then P / 2 ^ (- E) else P * 2 ^ E) /\
  Z.sgn (Qnum q) = sign.
Proof.
  intros Hv Hq P E sign. unfold Spec.real_of_float in Hq. rewrite Hv in Hq.
  assert (HP : P = Z.pos m * 100000 * 2 ^ 36) by (unfold P; lia).
  assert (Hn : (if s then Z.neg m else Z.pos m) = sign * Z.pos m)
    by (unfold sign; destruct s; lia).
  destruct (Z.leb_spec 0 e) as [He|He]; injection Hq as <-.
  - assert (Hpe : 0 < 2 ^ e) by (apply Z.pow_pos_nonneg; lia).
    split.
    + unfold Spec.scale_up, Spec.truncate. cbn [Qmult Qnum Qden Pos.mul].
      rewrite Z.quot_1_r, Hn.
      destruct (Z.leb_spec E 0) as [HE|HE].
      * replace P with (Z.pos m * 100000 * 2 ^ e * 2 ^ (- E)).
        { rewrite Z.div_mul by (apply Z.pow_nonzero; lia). lia. }
        rewrite HP, <- !Z.mul_assoc, <- Z.pow_add_r by lia.
        do 3 f_equal. unfold E. lia.
      * replace (2 ^ e) with (2 ^ 36 * 2 ^ E)
          by (rewrite <- Z.pow_add_r by lia; f_equal; unfold E; lia).
        rewrite HP. lia.
    + cbn [Qnum]. rewrite Hn. unfold sign. destruct s; nia.
  - assert (Hpe : 0 < 2 ^ (- e)) by (apply Z.pow_pos_nonneg; lia).
    split.
    + replace (E <=? 0) with true by (symmetry; apply Z.leb_le; unfold E; lia).
      unfold Spec.scale_up, Spec.truncate. cbn [Qmult Qnum Qden].
      rewrite Pos.mul_1_r, Z2Pos.id by exact Hpe.
      replace (2 ^ (- E)) with (2 ^ (- e) * 2 ^ 36)
        by (rewrite <- Z.pow_add_r by lia; f_equal; unfold E; lia).
      rewrite HP, Z.div_mul_cancel_r by lia.
      unfold sign. destruct s.
      * change (Z.neg m * 100000) with (- (Z.pos m * 100000)).
        rewrite Z.quot_opp_l by lia. rewrite Z.quot_div_nonneg by lia. lia.
      * rewrite Z.quot_div_nonneg by lia. lia.
    + cbn [Qnum]. unfold sign. destruct s; reflexivity.
Qed.

Lemma magnitude_between (n m e : Z) :
  e <= 0 -> 0 <= n -> n * 2 ^ (- e) <= m <= (n + 1) * 2 ^ (- e) ->
  let k := if 0 <=? e then Z.shiftl m e else Z.shiftr m (- e) in
  k = n \/ k = n + 1.
Proof.
  intros He Hn [Hlo Hhi] k.
  assert (Hp : 0 < 2 ^ (- e)) by (apply Z.pow_pos_nonneg; lia).
  assert (Hk : n <= k <= n + 1); [|lia].
  unfold k. destruct (Z.leb_spec 0 e) as [H0|H0].
  - replace e with 0 in * by lia. rewrite Z.shiftl_0_r. simpl in Hlo, Hhi. lia.
  - rewrite Z.shiftr_div_pow2 by lia. split.
    + apply Z.div_le_lower_bound; [exact Hp|lia].
    + apply Z.div_le_upper_bound; [exact Hp|lia].
Qed.

Lemma scaled_near_exact (v : float) (q : Q) :
  Spec.real_of_float v = Some q ->
  Z.abs (Spec.scale_up q) + 1 < 2 ^ 53 ->
  exists k, scaled v = Ok k /\
            (k = Spec.scale_up q \/ k = Spec.scale_up q + Z.sgn (Qnum q)).
Proof.
  intros Hq Hb. pose proof Hq as Hq'. unfold Spec.real_of_float in Hq'.
  destruct (Prim2SF v) as [s|s| |s m e] eqn:Hv; try discriminate.
  - injection Hq' as <-. exists 0. split; [|left; reflexivity].
    unfold scaled, int_of_float. rewrite (product_of_zero v s Hv). reflexivity.
  - clear Hq'.
    destruct (scale_up_of_finite v s m e q Hv Hq) as [Hs Hsgn].
    set (P := (m * 6871947673600000)%positive) in *.
    set (E := e + -36) in *.
    unfold scaled, int_of_float. rewrite (product_of_finite v s m e Hv).
    fold P E. rewrite Hsgn.
    destruct (Z.leb_spec E 0) as [HE|HE].
    + assert (Hp : 0 < 2 ^ (- E)) by (apply Z.pow_pos_nonneg; lia).
      assert (Hn : 0 <= Z.pos P / 2 ^ (- E)) by (apply Z.div_pos; lia).
      assert (Hb' : Z.pos P / 2 ^ (- E) + 1 < 2 ^ 53)
        by (rewrite Hs in Hb; destruct s; lia).
      destruct (binary_round_aux_near s P E HE Hb')
        as [[H H0]|(m'' & e'' & H & He'' & Hm'')]; rewrite H.
      * exists 0. split; [reflexivity|]. left. rewrite Hs, H0. lia.
      * eexists. split; [reflexivity|].
        pose proof (magnitude_between _ _ _ He'' Hn Hm'') as Hk.
        cbv zeta in Hk. rewrite Hs. destruct s; lia.
    + assert (Hb' : Z.pos P * 2 ^ E < 2 ^ 53).
      { assert (0 < 2 ^ E) by (apply Z.pow_pos_nonneg; lia).
        rewrite Hs in Hb. destruct s; nia. }
      rewrite (binary_round_aux_integer s P E HE Hb').
      eexists. split; [reflexivity|]. left.
      replace (0 <=? E) with true by (symmetry; apply Z.leb_le; lia).
      rewrite Z.shiftl_mul_pow2, Hs by lia. destruct s; lia.
Qed.

Lemma scaled_of_finite_product (v : float) (q : Q) :
  Spec.real_of_float v = Some q ->
  match Spec.real_of_float (v * 100000) with
  | Some p => scaled v = Ok (Spec.truncate p)
  | None => scaled v = Raise OverflowError
  end.
Proof.
  intros Hq. pose proof (product_is_not_nan v q Hq) as Hnan.
  pose proof (int_of_float_truncates (v * 100000)) as H. unfold scaled.
  destruct (Spec.real_of_float (v * 100000)); [exact H|].
  destruct H as [H|H]; [exact H|exfalso].
  unfold int_of_float in H.
  destruct (Prim2SF (v * 100000)); try discriminate. apply Hnan. reflexivity.
Qed.

(** C7, as stated, fails.  The float 0.3 is 5404319552844595 / 2^54, a
    little below three tenths; multiplied by 100000 and truncated toward
    zero it is 29999, while the float product the code computes rounds to
    30000.0 and the scaled integer is 30000 (in the same way 0.7 gives
    70000, not 69999).  The float 2^1020 is finite, and has no scaled
    integer at all: the product is infinite and [int] raises. *)
Lemma scaled_is_not_the_exact_truncation :
  Spec.real_of_float 0.3 = Some (5404319552844595 # 18014398509481984) /\
  Spec.scale_up (5404319552844595 # 18014398509481984) = 29999 /\
  scaled 0.3 = Ok 30000 /\
  scaled 0.3 <> Ok (Spec.scale_up (5404319552844595 # 18014398509481984)) /\
  Spec.real_of_float 0.7 = Some (6305039478318694 # 9007199254740992) /\
  Spec.scale_up (6305039478318694 # 9007199254740992) = 69999 /\
  scaled 0.7 = Ok 70000 /\
  Spec.real_of_float 0x1p1020 = Some (2 ^ 1020 # 1) /\
  scaled 0x1p1020 = Raise OverflowError.
Proof. repeat split; vm_compute; (reflexivity || discriminate). Qed.

(** C7 (amended): for every finite float [v], the scaled integer that
    [encode_coords] feeds into the delta computation is the float product
    [v * 1e5] truncated toward zero (not rounded to nearest: the magnitude
    is rounded down and the sign kept), for positive and negative [v]
    alike, and the call raises [OverflowError] when that product is
    infinite.  Moreover, when [v] multiplied by 100000 and truncated toward
    zero in exact arithmetic is below [2^53 - 1] in magnitude, the scaled
    integer is that exact truncation or the integer next to it away from
    zero. *)
Theorem scaled_truncates_the_rounded_product (v : float) (q : Q) :
  Spec.real_of_float v = Some q ->
  match Spec.real_of_float (PrimFloat.mul v 100000) with
  | Some p =>
      scaled v = Ok (Spec.truncate p) /\
      Z.abs (Spec.truncate p) * Z.pos (Qden p) <= Z.abs (Qnum p)
        < (Z.abs (Spec.truncate p) + 1) * Z.pos (Qden p) /\
      0 <= Spec.truncate p * Qnum p
  | None => scaled v = Raise OverflowError
  end /\
  (Z.abs (Spec.scale_up q) + 1 < 2 ^ 53 ->
   exists k, scaled v = Ok k /\
             (k = Spec.scale_up q \/ k = Spec.scale_up q + Z.sgn (Qnum q))).
Proof.
  intros Hq. split.
  - pose proof (scaled_of_finite_product v q Hq) as H.
    destruct (Spec.real_of_float (PrimFloat.mul v 100000)) as [p|]; [|exact H].
    split; [exact H|apply truncate_toward_zero].
  - apply scaled_near_exact. exact Hq.
Qed.

Lemma scaled_truncates_the_rounded_product_witness :
  Spec.real_of_float 0.3 = Some (5404319552844595 # 18014398509481984) /\
  exists k, scaled 0.3 = Ok k /\
            (k = Spec.scale_up (5404319552844595 # 18014398509481984) \/
             k = Spec.scale_up (5404319552844595 # 18014398509481984)
                 + Z.sgn (Qnum (5404319552844595 # 18014398509481984))).
Proof.
  assert (H : Spec.real_of_float 0.3 = Some (5404319552844595 # 18014398509481984))
    by (vm_compute; reflexivity).
  split; [exact H|].
  apply (proj2 (scaled_truncates_the_rounded_product 0.3 _ H)).
  vm_compute. reflexivity.
Defined.

(** Truncation, not rounding to nearest and not rounding down. *)
Example scaled_truncates_positive : scaled 0.000019 = Ok 1.
Proof. vm_compute. reflexivity. Qed.

Example scaled_truncates_negative : scaled (-0.000019) = Ok (-1).
Proof. vm_compute. reflexivity. Qed.

(** ** C8: the characters of the output *)

Lemma emit_deltas_printable (ks : list (Z * Z)) :
  forall first second,
    Forall (fun c => 63 <= ord c <= 126) (emit_deltas ks first second).
Proof.
  induction ks as [|[a b] ks IH]; intros first second; simpl.
  - constructor.
  - rewrite !Forall_app. auto using encode_value_printable.
Qed.

(** C8: every character of a string returned by [encode_coords] has a code
    point between 63 and 126. *)
Theorem encode_coords_printable (coords : list coordinate) (text : str) :
  encode_coords coords = Ok text ->
  Forall (fun c => 63 <= ord c <= 126) text.
Proof.
  rewrite encode_coords_emit.
  destruct (scale_all coords) as [ks|e]; simpl; intros H; inversion H.
  apply emit_deltas_printable.
Qed.

Lemma encode_coords_printable_witness :
  encode_coords known_vector = Ok known_text /\
  Forall (fun c => 63 <= ord c <= 126) known_text.
Proof.
  assert (H : encode_coords known_vector = Ok known_text)
    by (vm_compute; reflexivity).
  split; [exact H|].
  exact (encode_coords_printable known_vector known_text H).
Defined.

(** ** C9: empty input *)

(** C9: [encode_coords] of the empty sequence is the empty string, and
    [decode_polyline] of the empty string is the empty sequence. *)
Theorem empty_input_identities :
  encode_coords [] = Ok [] /\ decode_polyline [] = Ok [].
Proof. split; reflexivity. Qed.

(** ** C10: [get_directions_polylines] *)

Lemma polylines_loop_inv (directions_result : list dict) :
  forall polylines l,
    polylines_loop directions_result polylines = Ok l ->
    forallb has_overview directions_result = true /\
    exists points,
      l = polylines ++ points /\
      Forall2 (fun direction p => points_of direction = Some p)
              directions_result points.
Proof.
  induction directions_result as [|direction ds IH]; intros polylines l; simpl.
  - intros H. inversion H; subst. split; [reflexivity|].
    exists []. rewrite app_nil_r. auto.
  - unfold has_overview at 1, dict_contains.
    destruct (dict_get direction "overview_polyline") as [o|] eqn:Ho; [|discriminate].
    destruct o as [| | | |overview]; simpl; try discriminate.
    destruct (dict_get overview "points") as [p|] eqn:Hp; simpl; [|discriminate].
    intros H. apply IH in H. destruct H as (Hall & points & Hl & Hpts).
    split; [exact Hall|].
    exists (p :: points). rewrite Hl, <- app_assoc. split; [reflexivity|].
    constructor; [|exact Hpts]. unfold points_of. rewrite Ho. exact Hp.
Qed.

Lemma polylines_loop_all (directions_result : list dict) :
  Forall well_shaped directions_result ->
  forallb has_overview directions_result = true ->
  forall polylines, exists l, polylines_loop directions_result polylines = Ok l.
Proof.
  induction 1 as [|direction ds Hd Hds IH]; simpl; intros Hall polylines.
  - eauto.
  - apply andb_prop in Hall. destruct Hall as [Hkey Hall].
    specialize (Hd Hkey). unfold has_overview in Hkey. rewrite Hkey.
    unfold points_of in Hd. unfold dict_contains in Hkey.
    destruct (dict_get direction "overview_polyline") as [o|]; [|discriminate].
    destruct o as [| | | |overview]; try congruence.
    simpl. destruct (dict_get overview "points") as [p|]; [|congruence].
    simpl. apply IH. exact Hall.
Qed.

Lemma polylines_loop_missing (directions_result : list dict) :
  Forall well_shaped directions_result ->
  forallb has_overview directions_result = false ->
  forall polylines, polylines_loop directions_result polylines = Raise NameError.
Proof.
  induction 1 as [|direction ds Hd Hds IH]; simpl; intros Hsome polylines.
  - discriminate.
  - unfold has_overview in Hsome at 1. unfold well_shaped, has_overview in Hd.
    destruct (dict_contains direction "overview_polyline") eqn:Hkey;
      [|reflexivity].
    specialize (Hd eq_refl). unfold points_of in Hd. unfold dict_contains in Hkey.
    destruct (dict_get direction "overview_polyline") as [o|]; [|discriminate].
    destruct o as [| | | |overview]; try congruence.
    simpl. destruct (dict_get overview "points") as [p|]; [|congruence].
    simpl. apply IH. exact Hsome.
Qed.

(** C10, as stated, fails: it puts no condition on what is stored under
    ['overview_polyline'].  In a non-empty input whose first entry stores a
    string there and whose second entry lacks the key, the subscript
    [['points']] of the first entry raises [TypeError] before the [else]
    branch is reached, so the error is not the undefined-name one.  And an
    input whose only entry stores an empty dictionary there raises
    [KeyError], although every entry contains the key. *)
Lemma polylines_need_the_shape :
  forallb has_overview
    [ [("overview_polyline"%string, PyStr (str_of "abc"))];
      [("summary"%string, PyStr (str_of "x"))] ] = false /\
  get_directions_polylines
    [ [("overview_polyline"%string, PyStr (str_of "abc"))];
      [("summary"%string, PyStr (str_of "x"))] ] = Raise TypeError /\
  get_directions_polylines
    [ [("overview_polyline"%string, PyStr (str_of "abc"))];
      [("summary"%string, PyStr (str_of "x"))] ] <> Raise NameError /\
  forallb has_overview [ [("overview_polyline"%string, PyDict [])] ] = true /\
  get_directions_polylines [ [("overview_polyline"%string, PyDict [])] ]
    = Raise KeyError.
Proof. repeat split; vm_compute; (reflexivity || discriminate). Qed.

(** C10 (amended): on an input in which every ['overview_polyline'] that is
    present is a dictionary with a ['points'] entry,
    [get_directions_polylines] returns a list only when every entry has the
    key ['overview_polyline'], and then the list holds each entry's nested
    ['points'] value in input order; when some entry lacks the key the call
    raises [NameError] (the [else] branch names the unbound variable
    [polyline]) and appends no [None]. *)
Theorem get_directions_polylines_outcome (directions_result : list dict) :
  Forall well_shaped directions_result ->
  (forall l,
      get_directions_polylines directions_result = Ok l ->
      forallb has_overview directions_result = true /\
      Forall2 (fun direction p => points_of direction = Some p)
              directions_result l) /\
  (forallb has_overview directions_result = true ->
   exists l, get_directions_polylines directions_result = Ok l) /\
  (forallb has_overview directions_result = false ->
   get_directions_polylines directions_result = Raise NameError).
Proof.
  intros Hshape. unfold get_directions_polylines.
  destruct directions_result as [|direction ds].
  - simpl. split; [|split].
    + intros l H. inversion H. auto.
    + eauto.
    + discriminate.
  - replace (0 <? Z.of_nat (List.length (direction :: ds))) with true
      by (symmetry; apply Z.ltb_lt; simpl List.length; lia).
    split; [|split].
    + intros l H. apply polylines_loop_inv in H.
      destruct H as (Hall & points & Hl & Hpts). subst l. auto.
    + intros Hall. apply polylines_loop_all; assumption.
    + intros Hsome. apply polylines_loop_missing; assumption.
Qed.

Lemma get_directions_polylines_outcome_witness :
  Forall well_shaped sample_directions /\
  forallb has_overview sample_directions = false /\
  get_directions_polylines sample_directions = Raise NameError.
Proof.
  assert (H : Forall well_shaped sample_directions).
  { repeat constructor; unfold well_shaped; vm_compute; congruence. }
  split; [exact H|]. split; [reflexivity|].
  exact (proj2 (proj2 (get_directions_polylines_outcome sample_directions H)) eq_refl).
Defined.

Example get_directions_polylines_all_present :
  get_directions_polylines
    [ [("overview_polyline"%string, PyDict [("points"%string, PyStr known_text)])];
      [("overview_polyline"%string, PyDict [("points"%string, PyStr (str_of "??"))])] ]
  = Ok [PyStr known_text; PyStr (str_of "??")].
Proof. reflexivity. Qed.

Example get_directions_polylines_empty : get_directions_polylines [] = Ok [].
Proof. reflexivity. Qed.

(** * Further properties of the codec *)

(** ** The encoding of one integer *)

(** X1: the characters of an integer delimit themselves: if two encodings,
    each followed by further text, give the same string, then the integers
    are equal and so are the further texts.  In particular [_encode_value]
    is injective. *)
Theorem encode_value_self_delimiting (a b : Z) (rest_a rest_b : str) :
  _encode_value a ++ rest_a = _encode_value b ++ rest_b ->
  a = b /\ rest_a = rest_b.
Proof.
  intros H. apply (f_equal decode_value) in H.
  rewrite !decode_encode_value in H. inversion H. auto.
Qed.

Lemma encode_value_self_delimiting_witness :
  _encode_value 5 ++ str_of "??" = _encode_value 5 ++ str_of "??" /\
  5 = 5 /\ str_of "??" = str_of "??".
Proof.
  split; [reflexivity|].
  apply (encode_value_self_delimiting 5 5 (str_of "??") (str_of "??")).
  reflexivity.
Defined.

Lemma chunks_shape (v : Z) :
  0 <= v ->
  exists front last,
    _split_into_chunks v = front ++ [last] /\
    Forall (fun chunk => 32 <= chunk <= 63) front /\ 0 <= last < 32.
Proof.
  revert v. apply (chunks_ind (fun v => exists front last, _ /\ _ /\ _)).
  - intros v Hv. exists [], v. rewrite split_into_chunks_unfold.
    destruct (Z.geb_spec v 32); [lia|]. repeat split; auto; lia.
  - intros v Hv (front & last & Hsplit & Hfront & Hlast).
    exists (Z.lor (Z.land v 31) 32 :: front), last.
    rewrite split_into_chunks_unfold.
    destruct (Z.geb_spec v 32); [|lia]. rewrite Hsplit.
    repeat split; auto; try lia.
    constructor; [|exact Hfront].
    rewrite continuation_chunk. pose proof (low5_range v). lia.
Qed.

(** X2: the characters [_encode_value] yields are one or more; every one
    but the last is in 95..126 (continuation bit set) and the last is in
    63..94 (continuation bit clear). *)
Theorem encode_value_shape (d : Z) :
  exists front last,
    _encode_value d = front ++ [last] /\
    Forall (fun c => 95 <= ord c <= 126) front /\ 63 <= ord last <= 94.
Proof.
  destruct (chunks_shape (fold_sign d) (fold_sign_nonneg d))
    as (front & last & Hsplit & Hfront & Hlast).
  exists (List.map (fun chunk => chr (chunk + 63)) front), (chr (last + 63)).
  rewrite encode_value_chunks, Hsplit, map_app. split; [reflexivity|].
  split.
  - apply Forall_map. eapply Forall_impl; [|exact Hfront].
    intros chunk H. unfold ord, chr. cbv beta in *. lia.
  - unfold ord, chr. lia.
Qed.

Lemma chunks_length_bound (n : nat) :
  forall v, 0 <= v < 2 ^ (5 * Z.of_nat (S n)) ->
  (List.length (_split_into_chunks v) <= S n)%nat.
Proof.
  induction n as [|n IH]; intros v Hv; rewrite split_into_chunks_unfold.
  - change (2 ^ (5 * Z.of_nat 1)) with 32 in Hv.
    destruct (Z.geb_spec v 32); [lia|]. simpl. lia.
  - destruct (Z.geb_spec v 32); [|simpl; lia].
    simpl. apply le_n_S. apply IH. split.
    + apply shiftr5_nonneg. lia.
    + rewrite Z.shiftr_div_pow2 by lia.
      apply Z.div_lt_upper_bound; [lia|].
      rewrite <- Z.pow_add_r by lia.
      replace (5 + 5 * Z.of_nat (S n)) with (5 * Z.of_nat (S (S n))) by lia.
      lia.
Qed.

(** X3: an integer of magnitude below [2^(5n-1)] takes at most [n]
    characters: one for -16..15, at most seven for a 32-bit delta. *)
Theorem encode_value_length (n : nat) (d : Z) :
  - 2 ^ (5 * Z.of_nat (S n) - 1) <= d < 2 ^ (5 * Z.of_nat (S n) - 1) ->
  (1 <= List.length (_encode_value d) <= S n)%nat.
Proof.
  intros Hd. split.
  - pose proof (encode_value_nonempty d) as H.
    destruct (_encode_value d); [congruence|simpl; lia].
  - rewrite encode_value_chunks, length_map.
    apply chunks_length_bound. split; [apply fold_sign_nonneg|].
    unfold fold_sign. rewrite Z.shiftl_mul_pow2 by lia.
    replace (2 ^ (5 * Z.of_nat (S n))) with (2 ^ (5 * Z.of_nat (S n) - 1) * 2 ^ 1)
      by (rewrite <- Z.pow_add_r by lia; f_equal; lia).
    destruct (Z.ltb_spec d 0); unfold Z.lnot; lia.
Qed.

Lemma encode_value_length_witness :
  - 2 ^ (5 * Z.of_nat 7 - 1) <= - 2 ^ 31 < 2 ^ (5 * Z.of_nat 7 - 1) /\
  (1 <= List.length (_encode_value (- 2 ^ 31)) <= 7)%nat.
Proof.
  assert (H : - 2 ^ (5 * Z.of_nat 7 - 1) <= - 2 ^ 31 < 2 ^ (5 * Z.of_nat 7 - 1))
    by (vm_compute; split; [discriminate|reflexivity]).
  split; [exact H|].
  exact (encode_value_length 6 (- 2 ^ 31) H).
Defined.

(** ** When [encode_coords] raises *)

Lemma scaled_finite (v : float) :
  product_is_finite v = true -> exists k, scaled v = Ok k.
Proof.
  unfold product_is_finite, scaled, int_of_float.
  destruct (Prim2SF (PrimFloat.mul v 100000)); try discriminate; eauto.
Qed.

Lemma scaled_not_finite (v : float) :
  product_is_finite v = false ->
  scaled v = Raise OverflowError \/ scaled v = Raise ValueError.
Proof.
  unfold product_is_finite, scaled, int_of_float.
  destruct (Prim2SF (PrimFloat.mul v 100000)); try discriminate; auto.
Qed.

Lemma scale_all_outcome (coords : list coordinate) :
  if forallb finite_coordinate coords
  then exists ks, scale_all coords = Ok ks /\ List.length ks = List.length coords
  else scale_all coords = Raise OverflowError \/ scale_all coords = Raise ValueError.
Proof.
  induction coords as [|[x y] coords IH]; cbn [forallb scale_all scaled_pair].
  - exists []. auto.
  - unfold finite_coordinate at 1. cbn [fst snd].
    destruct (product_is_finite x) eqn:Hx; destruct (product_is_finite y) eqn:Hy;
      cbn [andb].
    + destruct (scaled_finite x Hx) as [kx Sx].
      destruct (scaled_finite y Hy) as [ky Sy].
      rewrite Sy, Sx. rewrite !bind_Ok.
      destruct (forallb finite_coordinate coords).
      * destruct IH as (ks & -> & Hlen). simpl. exists ((kx, ky) :: ks).
        simpl. auto.
      * destruct IH as [-> | ->]; simpl; auto.
    + destruct (scaled_not_finite y Hy) as [-> | ->]; simpl; auto.
    + destruct (scaled_finite y Hy) as [ky ->]. simpl.
      destruct (scaled_not_finite x Hx) as [-> | ->]; simpl; auto.
    + destruct (scaled_not_finite y Hy) as [-> | ->]; simpl; auto.
Qed.

(** X4: [encode_coords] returns a string exactly when every product
    [v * 1e5] of a coordinate value is a finite float; otherwise it raises
    [OverflowError] (an infinite product) or [ValueError] (a NaN) and
    returns nothing.  It raises no other exception. *)
Theorem encode_coords_raises (coords : list coordinate) :
  if forallb finite_coordinate coords
  then exists text, encode_coords coords = Ok text
  else encode_coords coords = Raise OverflowError \/
       encode_coords coords = Raise ValueError.
Proof.
  rewrite encode_coords_emit.
  pose proof (scale_all_outcome coords) as H.
  destruct (forallb _ coords).
  - destruct H as (ks & -> & _). simpl. eauto.
  - destruct H as [-> | ->]; simpl; auto.
Qed.

Example encode_coords_infinity :
  encode_coords [(38.5, -120.2); (infinity, 0)]%float = Raise OverflowError.
Proof. vm_compute. reflexivity. Qed.

Example encode_coords_nan :
  encode_coords [(38.5, nan)]%float = Raise ValueError.
Proof. vm_compute. reflexivity. Qed.

(** A finite coordinate whose product overflows: 2^1020 * 1e5 is infinite. *)
Example encode_coords_large :
  encode_coords [(0x1p1020, 0)]%float = Raise OverflowError.
Proof. vm_compute. reflexivity. Qed.

(** ** Decoding an encoding, in general *)

Lemma scale_all_length (coords : list coordinate) (ks : list (Z * Z)) :
  scale_all coords = Ok ks -> List.length ks = List.length coords.
Proof.
  revert ks. induction coords as [|[x y] coords IH]; simpl; intros ks H.
  - inversion H. reflexivity.
  - destruct (scaled y); simpl in H; [|discriminate].
    destruct (scaled x); simpl in H; [|discriminate].
    destruct (scale_all coords) as [ks'|]; simpl in H; [|discriminate].
    inversion H. simpl. f_equal. apply IH. reflexivity.
Qed.

Lemma unscale_all_length (ks : list (Z * Z)) (cs : list coordinate) :
  unscale_all ks = Ok cs -> List.length cs = List.length ks.
Proof.
  revert cs. induction ks as [|[a b] ks IH]; simpl; intros cs H.
  - inversion H. reflexivity.
  - destruct (truediv_int_float a 100000); simpl in H; [|discriminate].
    destruct (truediv_int_float b 100000); simpl in H; [|discriminate].
    destruct (unscale_all ks) as [cs'|]; simpl in H; [|discriminate].
    inversion H. simpl. f_equal. apply IH. reflexivity.
Qed.

(** X5: for every coordinate sequence, decoding its encoding gives, in
    order, the coordinate [(int(x * 1e5) / 100000.0, int(y * 1e5) / 100000.0)]
    for each input [(x, y)], and so as many coordinates as were encoded;
    the deltas, sign folds and chunks in between lose nothing. *)
Theorem decode_of_encode (coords : list coordinate) :
  (text <- encode_coords coords ;; decode_polyline text) =
  (ks <- scale_all coords ;; unscale_all ks) /\
  forall text out,
    encode_coords coords = Ok text -> decode_polyline text = Ok out ->
    List.length out = List.length coords.
Proof.
  split.
  - rewrite encode_coords_emit.
    ok_or_raise (scale_all coords) ks.
    apply decode_polyline_emit.
  - intros text out. rewrite encode_coords_emit.
    destruct (scale_all coords) as [ks|e] eqn:Hks; simpl; [|discriminate].
    intros H; inversion H; subst text. rewrite decode_polyline_emit.
    intros Hout. apply unscale_all_length in Hout.
    apply scale_all_length in Hks. congruence.
Qed.

(** ** The decoding loop, iteration by iteration *)

(** Induction along the iterations of [while index < len(polyline_str)]:
    the loop ends with the input used up, or an iteration raises while it
    reads its two integers or converts to float, or it goes on. *)
Lemma decode_loop_cases
    (P : str -> Z -> Z -> list coordinate -> changes_dict ->
         outcome (list coordinate) -> Prop) :
  (forall lat lng coordinates changes,
      P [] lat lng coordinates changes (Ok coordinates)) ->
  (forall rest lat lng coordinates changes e,
      rest <> [] ->
      for_units [latitude; longitude] rest changes = Raise e ->
      P rest lat lng coordinates changes (Raise e)) ->
  (forall rest lat lng coordinates changes changes' rest',
      rest <> [] ->
      for_units [latitude; longitude] rest changes = Ok (changes', rest') ->
      (truediv_int_float (lat + at_latitude changes') 100000 = Raise OverflowError \/
       truediv_int_float (lng + at_longitude changes') 100000 = Raise OverflowError) ->
      P rest lat lng coordinates changes (Raise OverflowError)) ->
  (forall rest lat lng coordinates changes changes' rest' lat_deg lng_deg r,
      rest <> [] ->
      for_units [latitude; longitude] rest changes = Ok (changes', rest') ->
      truediv_int_float (lat + at_latitude changes') 100000 = Ok lat_deg ->
      truediv_int_float (lng + at_longitude changes') 100000 = Ok lng_deg ->
      P rest' (lat + at_latitude changes') (lng + at_longitude changes')
        (coordinates ++ [(lat_deg, lng_deg)]) changes' r ->
      P rest lat lng coordinates changes r) ->
  forall rest lat lng coordinates changes,
    P rest lat lng coordinates changes
      (decode_loop rest lat lng coordinates changes).
Proof.
  intros Hdone Hunits Hfloat Hnext rest.
  remember (List.length rest) as n eqn:Hn.
  revert rest Hn. induction n as [n IH] using lt_wf_ind.
  intros rest Hn lat lng coordinates changes.
  destruct rest as [|c rest0].
  - rewrite decode_loop_done. apply Hdone.
  - assert (Hne : c :: rest0 <> []) by discriminate.
    rewrite decode_loop_step by exact Hne.
    destruct (for_units [latitude; longitude] (c :: rest0) changes)
      as [[changes' rest']|e] eqn:Hu.
    2:{ rewrite bind_Raise. apply (Hunits _ _ _ _ _ _ Hne Hu). }
    rewrite bind_Ok. cbv beta iota zeta. cbn [changes_get].
    destruct (truediv_int_float (lat + at_latitude changes') 100000)
      as [lat_deg|e] eqn:Dlat.
    2:{ rewrite bind_Raise. pose proof (truediv_raises _ _ _ Dlat); subst e.
        apply (Hfloat _ _ _ _ _ _ _ Hne Hu). left. exact Dlat. }
    rewrite bind_Ok.
    destruct (truediv_int_float (lng + at_longitude changes') 100000)
      as [lng_deg|e] eqn:Dlng.
    2:{ rewrite bind_Raise. pose proof (truediv_raises _ _ _ Dlng); subst e.
        apply (Hfloat _ _ _ _ _ _ _ Hne Hu). right. exact Dlng. }
    rewrite bind_Ok.
    apply (Hnext _ _ _ _ _ _ _ _ _ _ Hne Hu Dlat Dlng).
    apply (IH (List.length rest')); [|reflexivity].
    apply for_two_units_shorter in Hu. lia.
Qed.

Lemma gather_raises (rest : str) :
  forall shift result e, gather rest shift result = Raise e -> e = IndexError.
Proof.
  induction rest as [|c rest IH]; simpl; intros shift result e H.
  - inversion H. reflexivity.
  - destruct (ord c - 63 >=? 32); [eapply IH; eassumption|discriminate].
Qed.

Lemma decode_value_raises (rest : str) (e : exception) :
  decode_value rest = Raise e -> e = IndexError.
Proof.
  rewrite decode_value_unfold_sign.
  destruct (gather rest 0 0) as [[r s]|e'] eqn:G; simpl; [discriminate|].
  intros H. inversion H. subst e'. eapply gather_raises. exact G.
Qed.

Lemma for_units_raises (units : list unit_key) :
  forall rest changes e,
    for_units units rest changes = Raise e -> e = IndexError.
Proof.
  induction units as [|u units IH]; simpl; intros rest changes e H.
  - discriminate.
  - destruct (decode_value rest) as [[v s]|e'] eqn:D; simpl in H.
    + eapply IH. exact H.
    + inversion H. subst e'. eapply decode_value_raises. exact D.
Qed.

(** X6: [decode_polyline] raises nothing but [IndexError] (the input ends
    before a coordinate is complete) and [OverflowError] (an accumulated
    integer is too large for a float): no character is ever rejected. *)
Theorem decode_polyline_raises (text : str) (e : exception) :
  decode_polyline text = Raise e -> e = IndexError \/ e = OverflowError.
Proof.
  unfold decode_polyline. revert e.
  apply (decode_loop_cases
           (fun _ _ _ _ _ r => forall e, r = Raise e -> _ \/ _)).
  - discriminate.
  - intros rest lat lng coordinates changes e0 _ Hu e H.
    inversion H. subst e0. left. eapply for_units_raises. exact Hu.
  - intros rest lat lng coordinates changes changes' rest' _ _ _ e H.
    inversion H. auto.
  - intros rest lat lng coordinates changes changes' rest' lat_deg lng_deg r
      _ _ _ _ IH. exact IH.
Qed.

Lemma decode_polyline_raises_witness :
  decode_polyline (str_of "_p~iF") = Raise IndexError /\
  (IndexError = IndexError \/ IndexError = OverflowError).
Proof.
  assert (H : decode_polyline (str_of "_p~iF") = Raise IndexError)
    by (vm_compute; reflexivity).
  split; [exact H|].
  exact (decode_polyline_raises (str_of "_p~iF") IndexError H).
Defined.

(** ** What a decodable text looks like *)

Lemma gather_count (rest : str) :
  forall shift result v rest',
    gather rest shift result = Ok (v, rest') ->
    count_ends rest = S (count_ends rest').
Proof.
  unfold count_ends.
  induction rest as [|c rest IH]; simpl; intros shift result v rest' H.
  - discriminate.
  - unfold ends_integer at 1.
    destruct (Z.geb_spec (ord c - 63) 32) as [Hge|Hlt].
    + destruct (Z.ltb_spec (ord c - 63) 32); [lia|]. eapply IH. exact H.
    + destruct (Z.ltb_spec (ord c - 63) 32); [|lia].
      inversion H; subst. reflexivity.
Qed.

Lemma decode_value_count (rest : str) (v : Z) (rest' : str) :
  decode_value rest = Ok (v, rest') -> count_ends rest = S (count_ends rest').
Proof.
  rewrite decode_value_unfold_sign.
  destruct (gather rest 0 0) as [[r s]|e] eqn:G; simpl; [|discriminate].
  intros H. inversion H; subst. eapply gather_count. exact G.
Qed.

Lemma for_two_units_count (rest : str) changes changes' rest' :
  for_units [latitude; longitude] rest changes = Ok (changes', rest') ->
  count_ends rest = S (S (count_ends rest')).
Proof.
  simpl.
  destruct (decode_value rest) as [[v s]|e] eqn:D1; simpl; [|discriminate].
  destruct (decode_value s) as [[w s']|e] eqn:D2; simpl; [|discriminate].
  intros H. inversion H; subst.
  apply decode_value_count in D1, D2. lia.
Qed.

(** X7: when [decode_polyline] returns, the text holds exactly two
    integer-ending characters (code point minus 63 below 32) per returned
    coordinate, and a non-empty text ends with one: a text with an odd
    number of integers, or one that stops inside an integer, never gives a
    list. *)
Theorem decode_polyline_counts (text : str) (coordinates : list coordinate) :
  decode_polyline text = Ok coordinates ->
  count_ends text = (2 * List.length coordinates)%nat /\
  (text <> [] ->
   exists front c, text = front ++ [c] /\ ends_integer c = true).
Proof.
  intros H. split.
  - revert coordinates H. unfold decode_polyline.
    assert (G : forall rest lat lng acc changes cs,
               decode_loop rest lat lng acc changes = Ok cs ->
               (count_ends rest + 2 * List.length acc = 2 * List.length cs)%nat).
    { intros rest lat lng acc changes.
      apply (decode_loop_cases
               (fun rest _ _ acc _ r => forall cs, r = Ok cs ->
                  (count_ends rest + 2 * List.length acc = 2 * List.length cs)%nat)).
      - intros _ _ acc' _ cs Hcs. inversion Hcs. reflexivity.
      - discriminate.
      - discriminate.
      - intros rest0 lat0 lng0 acc' changes0 changes' rest' lat_deg lng_deg r
          _ Hu _ _ IH cs Hcs.
        specialize (IH cs Hcs). apply for_two_units_count in Hu.
        rewrite length_app in IH. cbn [List.length] in IH.
        unfold coordinate in *. lia. }
    intros coordinates H. apply G in H. cbn [List.length] in H. lia.
  - intros Hne.
    destruct (exists_last Hne) as (front & c & ->).
    exists front, c. split; [reflexivity|].
    unfold ends_integer. destruct (Z.ltb_spec (ord c - 63) 32); [reflexivity|].
    exfalso. unfold decode_polyline in H.
    destruct (decode_loop_before_continuation c ltac:(lia)
                (S (List.length front)) front 0 0 []
                {| at_latitude := 0; at_longitude := 0 |} ltac:(lia))
      as [E|E]; rewrite E in H; discriminate.
Qed.

Lemma decode_polyline_counts_witness :
  decode_polyline known_text = Ok known_vector /\
  count_ends known_text = (2 * List.length known_vector)%nat /\
  (known_text <> [] ->
   exists front c, known_text = front ++ [c] /\ ends_integer c = true).
Proof.
  assert (H : decode_polyline known_text = Ok known_vector)
    by (vm_compute; reflexivity).
  split; [exact H|].
  exact (decode_polyline_counts known_text known_vector H).
Defined.

(** ** Characters outside the alphabet *)

Lemma small_int_to_float (z : Z) :
  -16 <= z <= 15 -> exists f, truediv_int_float z 100000 = Ok f.
Proof.
  intros Hz.
  assert (Hn : exists n, (n < 32)%nat /\ z = Z.of_nat n - 16)
    by (exists (Z.to_nat (z + 16)); lia).
  destruct Hn as (n & Hn & ->).
  do 32 (destruct n as [|n]; [vm_compute; eauto|]). lia.
Qed.

Lemma unfold_sign_small (r : Z) : 0 <= r < 32 -> -16 <= unfold_sign r <= 15.
Proof.
  intros Hr. unfold unfold_sign. rewrite low_bit, Z.shiftr_div_pow2 by lia.
  change (2 ^ 1) with 2.
  pose proof (Z.div_mod r 2 ltac:(lia)).
  pose proof (Z.mod_pos_bound r 2 ltac:(lia)).
  destruct (r mod 2 =? 0); simpl; unfold Z.lnot; lia.
Qed.

(** X8: no character is rejected for being outside 63..126.  Any two
    characters whose code points are below 95 (a space, a digit, a control
    character) decode to one coordinate. *)
Theorem decode_polyline_accepts_any_character (a b : char) :
  ord a < 95 -> ord b < 95 ->
  exists lat_deg lng_deg, decode_polyline [a; b] = Ok [(lat_deg, lng_deg)].
Proof.
  intros Ha Hb. unfold decode_polyline.
  rewrite decode_loop_step by discriminate.
  assert (Da : decode_value [a; b] = Ok (unfold_sign (Z.land (ord a - 63) 31), [b])).
  { rewrite decode_value_unfold_sign. simpl.
    destruct (Z.geb_spec (ord a - 63) 32); [lia|]. reflexivity. }
  assert (Db : decode_value [b] = Ok (unfold_sign (Z.land (ord b - 63) 31), [])).
  { rewrite decode_value_unfold_sign. simpl.
    destruct (Z.geb_spec (ord b - 63) 32); [lia|]. reflexivity. }
  cbn [for_units]. rewrite Da, bind_Ok. cbv beta iota zeta.
  rewrite Db, bind_Ok. cbv beta iota zeta. rewrite bind_Ok.
  cbv beta iota zeta. cbn [changes_get changes_set at_latitude at_longitude].
  destruct (small_int_to_float _ (unfold_sign_small _ (low5_range (ord a - 63))))
    as [lat_deg Hlat].
  destruct (small_int_to_float _ (unfold_sign_small _ (low5_range (ord b - 63))))
    as [lng_deg Hlng].
  exists lat_deg, lng_deg. unfold ord in *.
  rewrite !Z.add_0_l, Hlat, bind_Ok, Hlng, bind_Ok, decode_loop_done.
  reflexivity.
Qed.

Lemma decode_polyline_accepts_any_character_witness :
  ord 32 < 95 /\ ord 7 < 95 /\
  exists lat_deg lng_deg, decode_polyline [32; 7] = Ok [(lat_deg, lng_deg)].
Proof.
  split; [unfold ord; lia|]. split; [unfold ord; lia|].
  apply (decode_polyline_accepts_any_character 32 7); unfold ord; lia.
Defined.

(** ** Longer paths and longer texts *)

Lemma scale_all_app (xs ys : list coordinate) :
  scale_all (xs ++ ys) =
  (ks <- scale_all xs ;; ks' <- scale_all ys ;; Ok (ks ++ ks')).
Proof.
  induction xs as [|c xs IH]; simpl.
  - destruct (scale_all ys); reflexivity.
  - ok_or_raise (scaled_pair c) k. rewrite IH.
    ok_or_raise (scale_all xs) ks.
    ok_or_raise (scale_all ys) ks'. reflexivity.
Qed.

Lemma emit_deltas_app (ks ks' : list (Z * Z)) :
  forall first second,
    exists first' second',
      emit_deltas (ks ++ ks') first second =
      emit_deltas ks first second ++ emit_deltas ks' first' second'.
Proof.
  induction ks as [|[a b] ks IH]; intros first second; simpl.
  - exists first, second. reflexivity.
  - destruct (IH a b) as (first' & second' & ->).
    exists first', second'. rewrite <- !app_assoc. reflexivity.
Qed.

(** X9: the encoding of a path starts with the encoding of each of its
    prefixes: if [encode_coords] returns for [xs ++ ys], it returns for
    [xs], and the longer text is that text followed by more characters. *)
Theorem encode_coords_extends (xs ys : list coordinate) (text : str) :
  encode_coords (xs ++ ys) = Ok text ->
  exists text_xs more, encode_coords xs = Ok text_xs /\ text = text_xs ++ more.
Proof.
  rewrite !encode_coords_emit, scale_all_app.
  destruct (scale_all xs) as [ks|e]; simpl; [|discriminate].
  destruct (scale_all ys) as [ks'|e]; simpl; [|discriminate].
  intros H. inversion H.
  destruct (emit_deltas_app ks ks' 0 0) as (first' & second' & ->).
  eauto.
Qed.

Lemma encode_coords_extends_witness :
  encode_coords ([(38.5, -120.2)%float] ++ [(40.7, -120.95); (43.252, -126.453)]%float)
    = Ok known_text /\
  exists text_xs more,
    encode_coords [(38.5, -120.2)%float] = Ok text_xs /\
    known_text = text_xs ++ more.
Proof.
  assert (H : encode_coords
                ([(38.5, -120.2)%float] ++ [(40.7, -120.95); (43.252, -126.453)]%float)
              = Ok known_text) by (vm_compute; reflexivity).
  split; [exact H|].
  exact (encode_coords_extends _ _ _ H).
Defined.

Lemma gather_app (rest more : str) :
  forall shift result v rest',
    gather rest shift result = Ok (v, rest') ->
    gather (rest ++ more) shift result = Ok (v, rest' ++ more).
Proof.
  induction rest as [|c rest IH]; simpl; intros shift result v rest' H.
  - discriminate.
  - destruct (ord c - 63 >=? 32).
    + apply IH. exact H.
    + inversion H; subst. reflexivity.
Qed.

Lemma decode_value_app (rest more : str) (v : Z) (rest' : str) :
  decode_value rest = Ok (v, rest') ->
  decode_value (rest ++ more) = Ok (v, rest' ++ more).
Proof.
  rewrite !decode_value_unfold_sign.
  destruct (gather rest 0 0) as [[r s]|e] eqn:G; simpl; [|discriminate].
  intros H. inversion H; subst.
  rewrite (gather_app _ more _ _ _ _ G). reflexivity.
Qed.

Lemma for_units_app (units : list unit_key) (more : str) :
  forall rest changes changes' rest',
    for_units units rest changes = Ok (changes', rest') ->
    for_units units (rest ++ more) changes = Ok (changes', rest' ++ more).
Proof.
  induction units as [|u units IH]; simpl; intros rest changes changes' rest' H.
  - inversion H; subst. reflexivity.
  - destruct (decode_value rest) as [[v s]|e] eqn:D; simpl in H; [|discriminate].
    rewrite (decode_value_app _ more _ _ D). simpl. apply IH. exact H.
Qed.

(** After a text that decodes, the loop goes on with what follows it. *)
Lemma decode_loop_app (more : str) :
  forall rest lat lng coordinates changes decoded,
    decode_loop rest lat lng coordinates changes = Ok decoded ->
    exists lat' lng' changes',
      decode_loop (rest ++ more) lat lng coordinates changes =
      decode_loop more lat' lng' decoded changes'.
Proof.
  intros rest lat lng coordinates changes.
  apply (decode_loop_cases
           (fun rest lat lng coordinates changes r =>
              forall decoded, r = Ok decoded ->
              exists lat' lng' changes',
                decode_loop (rest ++ more) lat lng coordinates changes =
                decode_loop more lat' lng' decoded changes')).
  - intros lat0 lng0 acc changes0 decoded H. inversion H; subst.
    exists lat0, lng0, changes0. reflexivity.
  - discriminate.
  - discriminate.
  - intros rest0 lat0 lng0 acc changes0 changes' rest' lat_deg lng_deg r
      Hne Hu Dlat Dlng IH decoded H.
    destruct (IH decoded H) as (lat' & lng' & changes'' & E).
    exists lat', lng', changes''.
    rewrite decode_loop_step by (destruct rest0; [congruence|discriminate]).
    rewrite (for_units_app _ more _ _ _ _ Hu), bind_Ok.
    cbv beta iota zeta. cbn [changes_get].
    rewrite Dlat, bind_Ok, Dlng, bind_Ok. exact E.
Qed.

Lemma decode_loop_keeps (rest : str) :
  forall lat lng coordinates changes decoded,
    decode_loop rest lat lng coordinates changes = Ok decoded ->
    exists more, decoded = coordinates ++ more.
Proof.
  intros lat lng coordinates changes.
  apply (decode_loop_cases
           (fun _ _ _ coordinates _ r =>
              forall decoded, r = Ok decoded ->
              exists more, decoded = coordinates ++ more)).
  - intros _ _ acc _ decoded H. inversion H. exists []. symmetry. apply app_nil_r.
  - discriminate.
  - discriminate.
  - intros rest0 lat0 lng0 acc changes0 changes' rest' lat_deg lng_deg r
      _ _ _ _ IH decoded H.
    destruct (IH decoded H) as (more & ->).
    rewrite <- app_assoc. eauto.
Qed.

(** X10: decoding is incremental.  If a text decodes to some coordinates
    and the text followed by more characters decodes too, the second list
    starts with the first: characters added at the end never change the
    coordinates already decoded. *)
Theorem decode_polyline_extends (text more : str)
    (decoded decoded' : list coordinate) :
  decode_polyline text = Ok decoded ->
  decode_polyline (text ++ more) = Ok decoded' ->
  exists coordinates, decoded' = decoded ++ coordinates.
Proof.
  unfold decode_polyline. intros H H'.
  destruct (decode_loop_app more _ _ _ _ _ _ H) as (lat' & lng' & changes' & E).
  rewrite E in H'. eapply decode_loop_keeps. exact H'.
Qed.

Lemma decode_polyline_extends_witness :
  decode_polyline (str_of "_p~iF~ps|U") = Ok [(38.5, -120.2)%float] /\
  decode_polyline (str_of "_p~iF~ps|U" ++ str_of "_ulLnnqC_mqNvxq`@") = Ok known_vector /\
  exists coordinates, known_vector = [(38.5, -120.2)%float] ++ coordinates.
Proof.
  assert (H : decode_polyline (str_of "_p~iF~ps|U") = Ok [(38.5, -120.2)%float])
    by (vm_compute; reflexivity).
  assert (H' : decode_polyline (str_of "_p~iF~ps|U" ++ str_of "_ulLnnqC_mqNvxq`@")
               = Ok known_vector) by (vm_compute; reflexivity).
  split; [exact H|]. split; [exact H'|].
  exact (decode_polyline_extends _ _ _ _ H H').
Defined.

(** * Properties of the response helpers *)

(** ** [get_geocode_locations] *)

Lemma geocode_loop_located (geocode_result : list object) :
  forall locations l,
    geocode_loop geocode_result locations = Ok l <->
    exists found, l = locations ++ found /\ Forall2 located geocode_result found.
Proof.
  induction geocode_result as [|address rest IH]; intros locations l; simpl.
  - split.
    + intros H. inversion H. exists []. rewrite app_nil_r. auto.
    + intros (found & -> & H). inversion H. rewrite app_nil_r. reflexivity.
  - split.
    + destruct (getitem address "geometry") as [geometry|] eqn:G; simpl; [|discriminate].
      destruct (getitem geometry "location") as [location|] eqn:L; simpl; [|discriminate].
      destruct (getitem location "lat") as [lat|] eqn:A; simpl; [|discriminate].
      destruct (getitem location "lng") as [lng|] eqn:N; simpl; [|discriminate].
      intros H. apply IH in H. destruct H as (found & -> & Hfound).
      exists (PyList [lat; lng] :: found). rewrite <- app_assoc. split; [reflexivity|].
      constructor; [|exact Hfound].
      exists geometry, location, lat, lng. auto.
    + intros (found & -> & H). inversion H as [|a loc r f Hloc Hrest]; subst.
      destruct Hloc as (geometry & location & lat & lng & G & L & A & N & ->).
      rewrite G, bind_Ok, L, bind_Ok, A, bind_Ok, N, bind_Ok. apply IH.
      exists f. rewrite <- app_assoc. auto.
Qed.

Lemma getitem_raises (o : object) (key : string) (e : exception) :
  getitem o key = Raise e -> e = KeyError \/ e = TypeError.
Proof.
  destruct o as [| | | |d]; simpl; intros H; try (inversion H; auto; fail).
  destruct (dict_get d key); inversion H; auto.
Qed.

Lemma geocode_loop_raises (geocode_result : list object) :
  forall locations e,
    geocode_loop geocode_result locations = Raise e ->
    e = KeyError \/ e = TypeError.
Proof.
  induction geocode_result as [|address rest IH]; intros locations e; simpl.
  - discriminate.
  - destruct (getitem address "geometry") as [geometry|] eqn:G; simpl.
    2:{ intros H; inversion H; subst. eapply getitem_raises. exact G. }
    destruct (getitem geometry "location") as [location|] eqn:L; simpl.
    2:{ intros H; inversion H; subst. eapply getitem_raises. exact L. }
    destruct (getitem location "lat") as [lat|] eqn:A; simpl.
    2:{ intros H; inversion H; subst. eapply getitem_raises. exact A. }
    destruct (getitem location "lng") as [lng|] eqn:N; simpl.
    2:{ intros H; inversion H; subst. eapply getitem_raises. exact N. }
    apply IH.
Qed.

(** X11: [get_geocode_locations] returns a list exactly when every result
    has [geometry.location] with both ['lat'] and ['lng']; the list then
    has one [[lat, lng]] per result, in input order.  A result that lacks
    one of the keys makes the whole call raise ([KeyError], or [TypeError]
    where a value is no dictionary): nothing is skipped or defaulted. *)
Theorem get_geocode_locations_outcome (geocode_result : list object) :
  (forall locations,
      get_geocode_locations geocode_result = Ok locations <->
      Forall2 located geocode_result locations) /\
  (forall locations,
      get_geocode_locations geocode_result = Ok locations ->
      List.length locations = List.length geocode_result) /\
  (forall e,
      get_geocode_locations geocode_result = Raise e ->
      e = KeyError \/ e = TypeError).
Proof.
  unfold get_geocode_locations.
  assert (Hiff : forall locations,
             geocode_loop geocode_result [] = Ok locations <->
             Forall2 located geocode_result locations).
  { intros locations. rewrite geocode_loop_located. simpl. split.
    - intros (found & -> & H). exact H.
    - intros H. eauto. }
  split; [exact Hiff|]. split.
  - intros locations H. apply Hiff in H. symmetry. eapply Forall2_length. exact H.
  - apply geocode_loop_raises.
Qed.

(** ** The legs of a directions response *)

Lemma legs_loop_skips (inner : list object -> list object -> outcome (list object))
    (directions_result : list dict) :
  forall distances,
    legs_loop inner directions_result distances =
    legs_loop inner (List.filter has_legs directions_result) distances.
Proof.
  induction directions_result as [|direction ds IH]; intros distances;
    cbn [legs_loop List.filter].
  - reflexivity.
  - unfold has_legs at 1.
    destruct (dict_contains direction "legs") eqn:Hlegs.
    + cbn [legs_loop]. rewrite Hlegs.
      destruct (getitem (PyDict direction) "legs") as [legs_obj|];
        rewrite ?bind_Ok, ?bind_Raise; [|reflexivity].
      destruct (iter legs_obj) as [legs|];
        rewrite ?bind_Ok, ?bind_Raise; [|reflexivity].
      destruct (inner legs []) as [distance|];
        rewrite ?bind_Ok, ?bind_Raise; [|reflexivity].
      apply IH.
    + apply IH.
Qed.

Lemma legs_loop_length (inner : list object -> list object -> outcome (list object))
    (directions_result : list dict) :
  forall distances l,
    legs_loop inner directions_result distances = Ok l ->
    List.length l =
    (List.length distances + List.length (List.filter has_legs directions_result))%nat.
Proof.
  induction directions_result as [|direction ds IH]; intros distances l;
    cbn [legs_loop List.filter].
  - intros H. inversion H. simpl. lia.
  - unfold has_legs at 1.
    destruct (dict_contains direction "legs").
    + destruct (getitem (PyDict direction) "legs") as [legs_obj|];
        rewrite ?bind_Ok, ?bind_Raise; [|discriminate].
      destruct (iter legs_obj) as [legs|];
        rewrite ?bind_Ok, ?bind_Raise; [|discriminate].
      destruct (inner legs []) as [distance|];
        rewrite ?bind_Ok, ?bind_Raise; [|discriminate].
      intros H. apply IH in H. rewrite length_app in H.
      cbn [List.length] in *. lia.
    + apply IH.
Qed.

(** X12: a direction without the key ['legs'] is skipped, with no
    placeholder: both leg functions give the same outcome on the input and
    on the input with those directions removed, and a returned list has one
    entry per direction that has the key, so its positions do not line up
    with the input's when some direction lacks it. *)
Theorem legs_skip_directions_without_legs (directions_result : list dict) :
  get_directions_legs_distance directions_result =
    get_directions_legs_distance (List.filter has_legs directions_result) /\
  get_directions_legs_duration directions_result =
    get_directions_legs_duration (List.filter has_legs directions_result) /\
  (forall l,
      get_directions_legs_distance directions_result = Ok l \/
      get_directions_legs_duration directions_result = Ok l ->
      List.length l = List.length (List.filter has_legs directions_result)).
Proof.
  unfold get_directions_legs_distance, get_directions_legs_duration.
  split; [apply legs_loop_skips|]. split; [apply legs_loop_skips|].
  intros l [H|H]; apply legs_loop_length in H; simpl in H; exact H.
Qed.

Lemma sum_from_ints (vs : list Z) :
  forall start, sum_from start (List.map PyInt vs) = Ok (start + total vs).
Proof.
  induction vs as [|v vs IH]; intros start; simpl.
  - f_equal. lia.
  - rewrite IH. f_equal. unfold total. simpl. lia.
Qed.

Lemma map_sum_ints (vss : list (list Z)) :
  map_sum (List.map (List.map PyInt) vss) = Ok (List.map total vss).
Proof.
  induction vss as [|vs vss IH]; simpl.
  - reflexivity.
  - unfold sum. rewrite sum_from_ints, bind_Ok, IH. reflexivity.
Qed.

Lemma legs_distance_inner_meters (legs : list object) (vs : list Z) :
  Forall2 leg_meters legs vs ->
  forall distance,
    legs_distance_inner legs distance = Ok (distance ++ List.map PyInt vs).
Proof.
  induction 1 as [|leg v legs vs Hleg _ IH]; intros distance; simpl.
  - rewrite app_nil_r. reflexivity.
  - unfold leg_meters, leg_distance in Hleg.
    destruct (getitem leg "distance") as [d|]; simpl in *; [|discriminate].
    rewrite Hleg. simpl. rewrite IH, <- app_assoc. reflexivity.
Qed.

Lemma leg_duration_seconds (leg : object) (v : Z) :
  leg_seconds leg v -> leg_duration leg = Ok (PyInt v).
Proof.
  intros (l & -> & H). unfold leg_duration, dict_contains, getitem.
  destruct (dict_get l "duration_in_traffic") as [traffic|].
  - exact H.
  - destruct H as (duration & -> & H). exact H.
Qed.

Lemma legs_duration_inner_seconds (legs : list object) (vs : list Z) :
  Forall2 leg_seconds legs vs ->
  forall distance,
    legs_duration_inner legs distance = Ok (distance ++ List.map PyInt vs).
Proof.
  induction 1 as [|leg v legs vs Hleg _ IH]; intros distance; simpl.
  - rewrite app_nil_r. reflexivity.
  - rewrite (leg_duration_seconds _ _ Hleg). simpl.
    rewrite IH, <- app_assoc. reflexivity.
Qed.

(** The outer loop over directions that all have legs carrying integers. *)
Lemma legs_loop_values
    (inner : list object -> list object -> outcome (list object))
    (carries : object -> Z -> Prop) :
  (forall legs vs, Forall2 carries legs vs ->
     forall distance, inner legs distance = Ok (distance ++ List.map PyInt vs)) ->
  forall directions_result vss,
    Forall2 (legs_values carries) directions_result vss ->
    forall distances,
      legs_loop inner directions_result distances =
      Ok (distances ++ List.map (List.map PyInt) vss).
Proof.
  intros Hinner directions_result vss.
  induction 1 as [|direction vs ds vss Hd _ IH]; intros distances;
    cbn [legs_loop List.map].
  - rewrite app_nil_r. reflexivity.
  - destruct Hd as (legs_obj & legs & Hget & Hiter & Hlegs).
    unfold dict_contains, getitem. rewrite Hget, bind_Ok, Hiter, bind_Ok.
    rewrite (Hinner _ _ Hlegs), bind_Ok. cbn [app].
    rewrite IH, <- app_assoc. reflexivity.
Qed.

(** X13: when the legs of every direction that has ['legs'] carry an
    integer under [distance.value], [get_directions_total_distance] returns,
    for each such direction in order, the sum of its legs' distances (0 for
    an empty list of legs); directions without ['legs'] give no entry. *)
Theorem get_directions_total_distance_sums (directions_result : list dict)
    (meters : list (list Z)) :
  Forall2 (legs_values leg_meters) (List.filter has_legs directions_result) meters ->
  get_directions_total_distance directions_result = Ok (List.map total meters).
Proof.
  intros H. unfold get_directions_total_distance, get_directions_legs_distance.
  rewrite legs_loop_skips.
  rewrite (legs_loop_values _ _ legs_distance_inner_meters _ _ H).
  rewrite bind_Ok. apply map_sum_ints.
Qed.

Lemma get_directions_total_distance_sums_witness :
  Forall2 (legs_values leg_meters) (List.filter has_legs sample_routes)
          [[1200; 800]; []] /\
  get_directions_total_distance sample_routes = Ok [2000; 0].
Proof.
  assert (H : Forall2 (legs_values leg_meters) (List.filter has_legs sample_routes)
                      [[1200; 800]; []]).
  { repeat constructor.
    - eexists _, _. split; [reflexivity|]. split; [reflexivity|].
      repeat constructor.
    - eexists _, _. split; [reflexivity|]. split; [reflexivity|].
      constructor. }
  split; [exact H|].
  exact (get_directions_total_distance_sums sample_routes _ H).
Defined.

(** X14: when every leg of every direction that has ['legs'] carries an
    integer under [duration_in_traffic.value] if it has the key
    ['duration_in_traffic'], and under [duration.value] otherwise,
    [get_directions_total_duration] returns, for each such direction in
    order, the sum of those values: a leg's traffic duration replaces its
    plain duration, leg by leg. *)
Theorem get_directions_total_duration_sums (directions_result : list dict)
    (seconds : list (list Z)) :
  Forall2 (legs_values leg_seconds) (List.filter has_legs directions_result) seconds ->
  get_directions_total_duration directions_result = Ok (List.map total seconds).
Proof.
  intros H. unfold get_directions_total_duration, get_directions_legs_duration.
  rewrite legs_loop_skips.
  rewrite (legs_loop_values _ _ legs_duration_inner_seconds _ _ H).
  rewrite bind_Ok. apply map_sum_ints.
Qed.

Lemma get_directions_total_duration_sums_witness :
  Forall2 (legs_values leg_seconds) (List.filter has_legs sample_routes)
          [[90; 75]; []] /\
  get_directions_total_duration sample_routes = Ok [165; 0].
Proof.
  assert (H : Forall2 (legs_values leg_seconds) (List.filter has_legs sample_routes)
                      [[90; 75]; []]).
  { repeat constructor.
    - eexists _, _. split; [reflexivity|]. split; [reflexivity|].
      constructor; [|constructor; [|constructor]].
      + eexists. split; [reflexivity|]. simpl. eexists. split; reflexivity.
      + eexists. split; [reflexivity|]. reflexivity.
    - eexists _, _. split; [reflexivity|]. split; [reflexivity|].
      constructor. }
  split; [exact H|].
  exact (get_directions_total_duration_sums sample_routes _ H).
Defined.

(** ** [get_duration_matrix] and [get_distance_matrix] *)

Lemma setitem_inv {A : Type} (l : list A) :
  forall j v l',
    setitem l j v = Ok l' ->
    (j < List.length l)%nat /\ List.length l' = List.length l /\
    nth_error l' j = Some v /\
    (forall k, k <> j -> nth_error l' k = nth_error l k).
Proof.
  induction l as [|x l IH]; intros j v l'; simpl.
  - discriminate.
  - destruct j as [|j].
    + intros H. inversion H; subst. simpl. repeat split; try lia.
      intros [|k] Hk; [congruence|reflexivity].
    + destruct (setitem l j v) as [l''|] eqn:S; simpl; [|discriminate].
      intros H. inversion H; subst.
      destruct (IH _ _ _ S) as (Hj & Hlen & Hat & Hother).
      simpl. repeat split; try lia; auto.
      intros [|k] Hk; [reflexivity|]. simpl. apply Hother. lia.
Qed.

Lemma setitem_Forall {A : Type} (P : A -> Prop) (l : list A) :
  forall j v l', Forall P l -> P v -> setitem l j v = Ok l' -> Forall P l'.
Proof.
  induction l as [|x l IH]; intros j v l' Hl Hv; simpl.
  - discriminate.
  - inversion Hl; subst. destruct j as [|j].
    + intros H. inversion H. constructor; assumption.
    + destruct (setitem l j v) as [l''|] eqn:S; simpl; [|discriminate].
      intros H. inversion H. constructor; [assumption|].
      apply (IH j v l''); assumption.
Qed.

Lemma setitem_raises {A : Type} (l : list A) :
  forall j v e, setitem l j v = Raise e -> e = IndexError.
Proof.
  induction l as [|x l IH]; intros j v e; simpl.
  - intros H. inversion H. reflexivity.
  - destruct j as [|j]; [discriminate|].
    destruct (setitem l j v) as [l''|e'] eqn:S; simpl; [discriminate|].
    intros H. inversion H. subst. eapply IH. exact S.
Qed.

Lemma cell_at_width (N : nat) (matrix : list (list object)) (i j : nat)
    (v : object) :
  width N matrix -> cell_at matrix i j = Some v ->
  (i < List.length matrix)%nat /\ (j < N)%nat.
Proof.
  unfold width, cell_at. intros Hw H.
  destruct (nth_error matrix i) as [row|] eqn:Hrow; [|discriminate].
  split.
  - apply nth_error_Some. congruence.
  - rewrite Forall_forall in Hw.
    rewrite <- (Hw row (nth_error_In _ _ Hrow)).
    apply nth_error_Some. congruence.
Qed.

Lemma assign_inv (N : nat) (matrix : list (list object)) (i j : nat)
    (v : object) (matrix' : list (list object)) :
  assign matrix i j v = Ok matrix' ->
  List.length matrix' = List.length matrix /\
  (width N matrix -> width N matrix') /\
  cell_at matrix' i j = Some v /\
  (forall a b, a <> i \/ b <> j -> cell_at matrix' a b = cell_at matrix a b).
Proof.
  unfold assign.
  destruct (nth_error matrix i) as [row|] eqn:Hrow; [|discriminate].
  destruct (setitem row j v) as [row'|] eqn:Srow; simpl; [|discriminate].
  intros Smat.
  destruct (setitem_inv _ _ _ _ Srow) as (Hj & Hlen & Hat & Hother).
  destruct (setitem_inv _ _ _ _ Smat) as (Hi & Hlen' & Hat' & Hother').
  split; [exact Hlen'|]. split; [|split].
  - intros Hw. unfold width in *.
    eapply setitem_Forall; [exact Hw| |exact Smat].
    rewrite Hlen. rewrite Forall_forall in Hw.
    apply Hw. eapply nth_error_In. exact Hrow.
  - unfold cell_at. rewrite Hat'. exact Hat.
  - intros a b Hab. unfold cell_at.
    destruct (Nat.eq_dec a i) as [->|Ha].
    + rewrite Hat', Hrow. apply Hother. destruct Hab; congruence.
    + rewrite (Hother' a Ha). reflexivity.
Qed.

Lemma assign_raises (matrix : list (list object)) (i j : nat) (v : object)
    (e : exception) :
  assign matrix i j v = Raise e -> e = IndexError.
Proof.
  unfold assign.
  destruct (nth_error matrix i) as [row|]; [|intros H; inversion H; reflexivity].
  destruct (setitem row j v) as [row'|e'] eqn:S; simpl.
  - apply setitem_raises.
  - intros H. inversion H. subst. eapply setitem_raises. exact S.
Qed.

Lemma fill_row_inv (cell : dict -> outcome object) (N : nat)
    (elements : list object) (i : nat) :
  forall j matrix matrix',
    fill_row cell elements i j matrix = Ok matrix' ->
    List.length matrix' = List.length matrix /\
    (width N matrix -> width N matrix') /\
    (forall a b, a <> i \/ (b < j)%nat -> cell_at matrix' a b = cell_at matrix a b) /\
    (forall k element,
        nth_error elements k = Some element ->
        element_done cell matrix matrix' i (j + k) element).
Proof.
  induction elements as [|element elements IH]; intros j matrix matrix';
    cbn [fill_row].
  - intros H. inversion H; subst. repeat split; auto.
    intros [|k] element H'; discriminate.
  - destruct element as [| | | |d]; try discriminate.
    unfold getitem.
    destruct (dict_get d "status") as [status|] eqn:Hstatus;
      rewrite ?bind_Ok, ?bind_Raise; [|discriminate].
    destruct (eq_str status (str_of "OK")) eqn:Hok.
    + destruct (cell d) as [v|] eqn:Hcell; rewrite ?bind_Ok, ?bind_Raise;
        [|discriminate].
      destruct (assign matrix i j v) as [matrix1|] eqn:Hassign;
        rewrite ?bind_Ok, ?bind_Raise; [|discriminate].
      intros H.
      destruct (assign_inv N _ _ _ _ _ Hassign) as (L1 & W1 & At1 & Other1).
      destruct (IH _ _ _ H) as (L2 & W2 & Other2 & Done2).
      split; [congruence|]. split; [auto|]. split.
      * intros a b Hab. rewrite Other2 by (destruct Hab; [left|right]; lia).
        apply Other1. destruct Hab; [left|right]; lia.
      * intros [|k] element Hk; simpl in Hk.
        -- inversion Hk; subst. exists d, status.
           split; [reflexivity|]. split; [exact Hstatus|]. rewrite Hok.
           exists v. split; [exact Hcell|].
           rewrite Nat.add_0_r, Other2 by (right; lia). exact At1.
        -- destruct (Done2 k element Hk) as (d' & st' & -> & Hst' & Hd').
           exists d', st'. split; [reflexivity|]. split; [exact Hst'|].
           replace (j + S k)%nat with (S j + k)%nat by lia.
           destruct (eq_str st' (str_of "OK")); [exact Hd'|].
           rewrite Hd'. apply Other1. right. lia.
    + intros H. destruct (IH _ _ _ H) as (L2 & W2 & Other2 & Done2).
      split; [exact L2|]. split; [exact W2|]. split.
      * intros a b Hab. apply Other2. destruct Hab; [left|right]; lia.
      * intros [|k] element Hk; simpl in Hk.
        -- inversion Hk; subst. exists d, status.
           split; [reflexivity|]. split; [exact Hstatus|]. rewrite Hok.
           rewrite Nat.add_0_r. apply Other2. right. lia.
        -- replace (j + S k)%nat with (S j + k)%nat by lia.
           apply Done2. exact Hk.
Qed.

Lemma fill_matrix_inv (cell : dict -> outcome object) (N : nat)
    (rows : list object) :
  forall i matrix matrix',
    fill_matrix cell rows i matrix = Ok matrix' ->
    List.length matrix' = List.length matrix /\
    (width N matrix -> width N matrix') /\
    (forall a b, (a < i)%nat -> cell_at matrix' a b = cell_at matrix a b) /\
    (forall k row,
        nth_error rows k = Some row ->
        row_done cell matrix matrix' (i + k) row).
Proof.
  induction rows as [|row rows IH]; intros i matrix matrix'; cbn [fill_matrix].
  - intros H. inversion H; subst. repeat split; auto.
    intros [|k] row H'; discriminate.
  - destruct (getitem row "elements") as [elements_obj|] eqn:Hget;
      rewrite ?bind_Ok, ?bind_Raise; [|discriminate].
    destruct (iter elements_obj) as [elements|] eqn:Hiter;
      rewrite ?bind_Ok, ?bind_Raise; [|discriminate].
    destruct (fill_row cell elements i 0 matrix) as [matrix1|] eqn:Hrow;
      rewrite ?bind_Ok, ?bind_Raise; [|discriminate].
    intros H.
    destruct (fill_row_inv cell N _ _ _ _ _ Hrow) as (L1 & W1 & Other1 & Done1).
    destruct (IH _ _ _ H) as (L2 & W2 & Other2 & Done2).
    split; [congruence|]. split; [auto|]. split.
    + intros a b Ha. rewrite Other2 by lia. apply Other1. left. lia.
    + intros [|k] row' Hk; simpl in Hk.
      * inversion Hk; subst row'. exists elements_obj, elements.
        split; [exact Hget|]. split; [exact Hiter|].
        intros j element Hj. rewrite Nat.add_0_r.
        destruct (Done1 j element Hj) as (d & st & -> & Hst & Hd).
        exists d, st. split; [reflexivity|]. split; [exact Hst|].
        simpl in Hd.
        destruct (eq_str st (str_of "OK")).
        -- destruct Hd as (v & Hv & Hat). exists v. split; [exact Hv|].
           rewrite Other2 by lia. exact Hat.
        -- rewrite Other2 by lia. exact Hd.
      * replace (i + S k)%nat with (S i + k)%nat by lia.
        destruct (Done2 k row' Hk) as (eo & es & Hg & Hi & Hes).
        exists eo, es. split; [exact Hg|]. split; [exact Hi|].
        intros j element Hj.
        destruct (Hes j element Hj) as (d & st & -> & Hst & Hd).
        exists d, st. split; [reflexivity|]. split; [exact Hst|].
        destruct (eq_str st (str_of "OK")); [exact Hd|].
        rewrite Hd. apply Other1. left. lia.
Qed.

Lemma len_iter (o : object) (M : nat) :
  len o = Ok M -> exists items, iter o = Ok items /\ List.length items = M.
Proof.
  destruct o as [|s|n|items|d]; simpl; intros H; inversion H; subst.
  - eexists. split; [reflexivity|]. apply length_map.
  - eauto.
  - eexists. split; [reflexivity|]. apply length_map.
Qed.

Lemma iter_len (o : object) (items : list object) :
  iter o = Ok items -> len o = Ok (List.length items).
Proof.
  destruct o as [|s|n|l|d]; simpl; intros H; inversion H; subst;
    rewrite ?length_map; reflexivity.
Qed.

Lemma getitem_index_iter (o : object) (items : list object) (v : object) :
  iter o = Ok items -> getitem_index o 0 = Ok v -> nth_error items 0 = Some v.
Proof.
  destruct o as [|s|n|l|d]; cbn [iter getitem_index]; intros H G;
    inversion H; subst; try discriminate.
  - destruct s as [|c s]; cbn in *; [discriminate|]. inversion G. reflexivity.
  - destruct items as [|x items]; cbn in *; [discriminate|]. inversion G.
    reflexivity.
Qed.

Lemma width_repeat (N M : nat) : width N (List.repeat (List.repeat PyNone N) M).
Proof.
  unfold width. apply Forall_forall. intros row Hrow.
  apply repeat_spec in Hrow. subst. apply repeat_length.
Qed.

Lemma cell_at_repeat (N M i j : nat) (v : object) :
  cell_at (List.repeat (List.repeat PyNone N) M) i j = Some v -> v = PyNone.
Proof.
  unfold cell_at.
  destruct (nth_error (List.repeat (List.repeat PyNone N) M) i) as [row|] eqn:Hrow;
    [|discriminate].
  apply nth_error_In, repeat_spec in Hrow. subst row.
  intros H. apply nth_error_In, repeat_spec in H. exact H.
Qed.

(** What a returned matrix holds, for either cell expression. *)
Lemma get_matrix_inv (cell : dict -> outcome object)
    (distance_matrix_result : dict) (matrix : list (list object)) :
  get_matrix cell distance_matrix_result = Ok matrix ->
  match dict_get distance_matrix_result "rows" with
  | None => matrix = []
  | Some rows_obj =>
      exists rows,
        iter rows_obj = Ok rows /\
        List.length matrix = List.length rows /\
        (forall row0 elements0 N,
            nth_error rows 0 = Some row0 ->
            getitem row0 "elements" = Ok elements0 ->
            len elements0 = Ok N ->
            width N matrix) /\
        (forall i row,
            nth_error rows i = Some row ->
            exists elements_obj elements,
              getitem row "elements" = Ok elements_obj /\
              iter elements_obj = Ok elements /\
              forall j element,
                nth_error elements j = Some element ->
                cell_filled cell matrix i j element)
  end.
Proof.
  unfold get_matrix, dict_contains.
  change (getitem (PyDict distance_matrix_result) "rows")
    with (match dict_get distance_matrix_result "rows" with
          | Some v => Ok v
          | None => Raise KeyError
          end).
  destruct (dict_get distance_matrix_result "rows") as [rows_obj|];
    cbn [negb]; [|intros H; inversion H; reflexivity].
  rewrite bind_Ok.
  destruct (len rows_obj) as [M|] eqn:HM; rewrite ?bind_Ok, ?bind_Raise;
    [|discriminate].
  destruct (len_iter _ _ HM) as (rows & Hrows & Hlen).
  destruct (Nat.eqb_spec M 0) as [->|HM0].
  - intros H. inversion H; subst matrix.
    destruct rows; [|discriminate].
    exists []. split; [exact Hrows|]. split; [reflexivity|]. split.
    + intros row0 e0 N H0. discriminate.
    + intros [|i] row Hrow; discriminate.
  - destruct (getitem_index rows_obj 0) as [row0|] eqn:Hrow0;
      rewrite ?bind_Ok, ?bind_Raise; [|discriminate].
    destruct (getitem row0 "elements") as [elements0|] eqn:He0;
      rewrite ?bind_Ok, ?bind_Raise; [|discriminate].
    destruct (len elements0) as [N|] eqn:HN; rewrite ?bind_Ok, ?bind_Raise;
      [|discriminate].
    cbv zeta. rewrite Hrows, bind_Ok. intros H.
    destruct (fill_matrix_inv cell N _ _ _ _ H) as (L & W & _ & Done).
    rewrite repeat_length in L.
    exists rows. split; [reflexivity|]. split; [congruence|]. split.
    + intros row0' e0' N' H0 He0' HN'.
      rewrite (getitem_index_iter _ _ _ Hrows Hrow0) in H0.
      inversion H0; subst row0'. rewrite He0 in He0'. inversion He0'; subst e0'.
      rewrite HN in HN'. inversion HN'; subst N'.
      apply W, width_repeat.
    + intros i row Hrow.
      destruct (Done i row Hrow) as (eo & es & Hg & Hi & Hes).
      exists eo, es. split; [exact Hg|]. split; [exact Hi|].
      intros j element Hj.
      destruct (Hes j element Hj) as (d & st & -> & Hst & Hd).
      exists d, st. split; [reflexivity|]. split; [exact Hst|].
      simpl in Hd. destruct (eq_str st (str_of "OK")); [exact Hd|].
      intros v Hv. rewrite Hd in Hv. eapply cell_at_repeat. exact Hv.
Qed.

(** X15: a matrix returned by [get_duration_matrix] or
    [get_distance_matrix] is empty when the response has no ['rows'] key;
    otherwise it has one row per row of the response, and every row has as
    many cells as the first row of the response has elements, whatever the
    lengths of the other rows. *)
Theorem matrix_dimensions (distance_matrix_result : dict)
    (matrix : list (list object)) :
  get_duration_matrix distance_matrix_result = Ok matrix \/
  get_distance_matrix distance_matrix_result = Ok matrix ->
  match dict_get distance_matrix_result "rows" with
  | None => matrix = []
  | Some rows_obj =>
      exists rows,
        iter rows_obj = Ok rows /\
        List.length matrix = List.length rows /\
        forall row0 elements0 N,
          nth_error rows 0 = Some row0 ->
          getitem row0 "elements" = Ok elements0 ->
          len elements0 = Ok N ->
          Forall (fun row => List.length row = N) matrix
  end.
Proof.
  unfold get_duration_matrix, get_distance_matrix.
  intros [H|H]; apply get_matrix_inv in H;
    destruct (dict_get distance_matrix_result "rows"); try exact H;
    destruct H as (rows & Hiter & Hlen & Hwidth & _);
    exists rows; auto.
Qed.

Lemma matrix_dimensions_witness :
  (get_duration_matrix sample_matrix_response
     = Ok [[PyInt 0; PyInt 120]; [PyNone; PyInt 0]] \/
   get_distance_matrix sample_matrix_response
     = Ok [[PyInt 0; PyInt 120]; [PyNone; PyInt 0]]) /\
  match dict_get sample_matrix_response "rows" with
  | None => [[PyInt 0; PyInt 120]; [PyNone; PyInt 0]] = []
  | Some rows_obj =>
      exists rows,
        iter rows_obj = Ok rows /\
        List.length [[PyInt 0; PyInt 120]; [PyNone; PyInt 0]] = List.length rows /\
        forall row0 elements0 N,
          nth_error rows 0 = Some row0 ->
          getitem row0 "elements" = Ok elements0 ->
          len elements0 = Ok N ->
          Forall (fun row => List.length row = N)
                 [[PyInt 0; PyInt 120]; [PyNone; PyInt 0]]
  end.
Proof.
  assert (H : get_duration_matrix sample_matrix_response
                = Ok [[PyInt 0; PyInt 120]; [PyNone; PyInt 0]] \/
              get_distance_matrix sample_matrix_response
                = Ok [[PyInt 0; PyInt 120]; [PyNone; PyInt 0]])
    by (left; reflexivity).
  split; [exact H|].
  exact (matrix_dimensions sample_matrix_response _ H).
Defined.

(** X16: in a matrix returned by [get_distance_matrix], the cell of every
    element of the response whose status is 'OK' holds that element's
    [distance.value], and the cell of every other element holds [None];
    every element is a dictionary with a ['status']. *)
Theorem get_distance_matrix_cells (distance_matrix_result : dict)
    (matrix : list (list object)) (rows_obj : object) :
  get_distance_matrix distance_matrix_result = Ok matrix ->
  dict_get distance_matrix_result "rows" = Some rows_obj ->
  exists rows,
    iter rows_obj = Ok rows /\
    forall i row,
      nth_error rows i = Some row ->
      exists elements_obj elements,
        getitem row "elements" = Ok elements_obj /\
        iter elements_obj = Ok elements /\
        forall j element,
          nth_error elements j = Some element ->
          cell_filled distance_cell matrix i j element.
Proof.
  unfold get_distance_matrix. intros H Hrows.
  apply get_matrix_inv in H. rewrite Hrows in H.
  destruct H as (rows & Hiter & _ & _ & Hcells). eauto.
Qed.

Lemma get_distance_matrix_cells_witness :
  get_distance_matrix sample_matrix_response
    = Ok [[PyInt 0; PyInt 1500]; [PyNone; PyInt 0]] /\
  dict_get sample_matrix_response "rows" = Some (PyList sample_matrix_rows) /\
  exists rows,
    iter (PyList sample_matrix_rows) = Ok rows /\
    forall i row,
      nth_error rows i = Some row ->
      exists elements_obj elements,
        getitem row "elements" = Ok elements_obj /\
        iter elements_obj = Ok elements /\
        forall j element,
          nth_error elements j = Some element ->
          cell_filled distance_cell [[PyInt 0; PyInt 1500]; [PyNone; PyInt 0]]
                      i j element.
Proof.
  assert (H : get_distance_matrix sample_matrix_response
              = Ok [[PyInt 0; PyInt 1500]; [PyNone; PyInt 0]]) by reflexivity.
  split; [exact H|]. split; [reflexivity|].
  exact (get_distance_matrix_cells sample_matrix_response _ _ H eq_refl).
Defined.

(** X17: in a matrix returned by [get_duration_matrix], the cell of every
    element whose status is 'OK' holds [duration_in_traffic.value] when the
    element has the key ['duration_in_traffic'] and [duration.value]
    otherwise, and the cell of every other element holds [None]. *)
Theorem get_duration_matrix_cells (distance_matrix_result : dict)
    (matrix : list (list object)) (rows_obj : object) :
  get_duration_matrix distance_matrix_result = Ok matrix ->
  dict_get distance_matrix_result "rows" = Some rows_obj ->
  (exists rows,
     iter rows_obj = Ok rows /\
     forall i row,
       nth_error rows i = Some row ->
       exists elements_obj elements,
         getitem row "elements" = Ok elements_obj /\
         iter elements_obj = Ok elements /\
         forall j element,
           nth_error elements j = Some element ->
           cell_filled duration_cell matrix i j element) /\
  (forall element traffic,
      dict_get element "duration_in_traffic" = Some traffic ->
      duration_cell element = getitem traffic "value") /\
  (forall element,
      dict_get element "duration_in_traffic" = None ->
      duration_cell element =
      (duration <- getitem (PyDict element) "duration" ;; getitem duration "value")).
Proof.
  unfold get_duration_matrix. intros H Hrows.
  apply get_matrix_inv in H. rewrite Hrows in H.
  destruct H as (rows & Hiter & _ & _ & Hcells).
  split; [eauto|]. split.
  - intros element traffic Ht.
    unfold duration_cell, dict_contains, getitem. rewrite Ht. reflexivity.
  - intros element Ht. unfold duration_cell, dict_contains. rewrite Ht.
    reflexivity.
Qed.

Lemma get_duration_matrix_cells_witness :
  get_duration_matrix sample_matrix_response
    = Ok [[PyInt 0; PyInt 120]; [PyNone; PyInt 0]] /\
  dict_get sample_matrix_response "rows" = Some (PyList sample_matrix_rows) /\
  exists rows,
    iter (PyList sample_matrix_rows) = Ok rows /\
    forall i row,
      nth_error rows i = Some row ->
      exists elements_obj elements,
        getitem row "elements" = Ok elements_obj /\
        iter elements_obj = Ok elements /\
        forall j element,
          nth_error elements j = Some element ->
          cell_filled duration_cell [[PyInt 0; PyInt 120]; [PyNone; PyInt 0]]
                      i j element.
Proof.
  assert (H : get_duration_matrix sample_matrix_response
              = Ok [[PyInt 0; PyInt 120]; [PyNone; PyInt 0]]) by reflexivity.
  split; [exact H|]. split; [reflexivity|].
  exact (proj1 (get_duration_matrix_cells sample_matrix_response _ _ H eq_refl)).
Defined.

Example get_duration_matrix_in_traffic :
  get_duration_matrix
    [("rows"%string,
      PyList
        [PyDict
           [("elements"%string,
             PyList
               [PyDict
                  [("status"%string, PyStr (str_of "OK"));
                   ("duration"%string, PyDict [("value"%string, PyInt 120)]);
                   ("duration_in_traffic"%string,
                    PyDict [("value"%string, PyInt 150)])]])]])]
  = Ok [[PyInt 150]].
Proof. reflexivity. Qed.

Lemma fill_row_progress (cell : dict -> outcome object) (elements : list object) :
  Forall (well_formed_element cell) elements ->
  forall i j matrix,
    (exists matrix', fill_row cell elements i j matrix = Ok matrix') \/
    fill_row cell elements i j matrix = Raise IndexError.
Proof.
  induction 1 as [|element elements Hel _ IH]; intros i j matrix; cbn [fill_row].
  - eauto.
  - destruct Hel as (d & status & -> & Hstatus & Hcell).
    unfold getitem. rewrite Hstatus, bind_Ok.
    destruct (eq_str status (str_of "OK")); [|apply IH].
    destruct (Hcell eq_refl) as (v & ->). rewrite bind_Ok.
    destruct (assign matrix i j v) as [matrix1|e] eqn:Hassign.
    + rewrite bind_Ok. apply IH.
    + right. apply assign_raises in Hassign. subst e. reflexivity.
Qed.

Lemma fill_matrix_progress (cell : dict -> outcome object) (rows : list object) :
  Forall (well_formed_row cell) rows ->
  forall i matrix,
    (exists matrix', fill_matrix cell rows i matrix = Ok matrix') \/
    fill_matrix cell rows i matrix = Raise IndexError.
Proof.
  induction 1 as [|row rows Hrow _ IH]; intros i matrix; cbn [fill_matrix].
  - eauto.
  - destruct Hrow as (eo & es & -> & Hiter & Hes).
    rewrite bind_Ok, Hiter, bind_Ok.
    destruct (fill_row_progress cell es Hes i 0 matrix) as [(matrix1 & ->)| ->].
    + rewrite bind_Ok. apply IH.
    + right. reflexivity.
Qed.

Lemma get_matrix_progress (cell : dict -> outcome object)
    (distance_matrix_result : dict) (rows : list object) :
  dict_get distance_matrix_result "rows" = Some (PyList rows) ->
  Forall (well_formed_row cell) rows ->
  (exists matrix, get_matrix cell distance_matrix_result = Ok matrix) \/
  get_matrix cell distance_matrix_result = Raise IndexError.
Proof.
  intros Hrows Hwf. unfold get_matrix, dict_contains.
  change (getitem (PyDict distance_matrix_result) "rows")
    with (match dict_get distance_matrix_result "rows" with
          | Some v => Ok v
          | None => Raise KeyError
          end).
  rewrite Hrows. cbn [negb]. rewrite bind_Ok.
  destruct rows as [|row0 rows];
    cbn [len iter getitem_index List.length nth_error]; rewrite bind_Ok;
    cbn [Nat.eqb]; [left; eauto|].
  rewrite bind_Ok.
  pose proof Hwf as Hwf'. inversion Hwf' as [|r rs Hrow0 _]; subst.
  destruct Hrow0 as (eo & es & -> & Hiter & _).
  rewrite bind_Ok, (iter_len _ _ Hiter), !bind_Ok. cbv zeta.
  apply fill_matrix_progress. exact Hwf.
Qed.

(** X18: rows longer than the first are not supported.  When the response
    is a list of rows of well-formed elements and some element with status
    'OK' stands in a column at or beyond the number of elements of the
    first row, the call raises [IndexError] at the store into the matrix;
    this holds for [get_duration_matrix] and [get_distance_matrix], which
    are [get_matrix] at their cell expression. *)
Theorem matrix_ragged_row_raises (cell : dict -> outcome object)
    (distance_matrix_result : dict) (rows : list object)
    (row0 elements0 row elements_obj : object) (elements : list object)
    (N i j : nat) (element : dict) (status : object) :
  dict_get distance_matrix_result "rows" = Some (PyList rows) ->
  Forall (well_formed_row cell) rows ->
  nth_error rows 0 = Some row0 ->
  getitem row0 "elements" = Ok elements0 ->
  len elements0 = Ok N ->
  nth_error rows i = Some row ->
  getitem row "elements" = Ok elements_obj ->
  iter elements_obj = Ok elements ->
  nth_error elements j = Some (PyDict element) ->
  dict_get element "status" = Some status ->
  eq_str status (str_of "OK") = true ->
  (N <= j)%nat ->
  get_matrix cell distance_matrix_result = Raise IndexError.
Proof.
  intros Hrows Hwf H0 He0 HN Hi Hget Hiter Hj Hstatus Hok Hwide.
  destruct (get_matrix_progress cell _ _ Hrows Hwf) as [(matrix & H)|H];
    [|exact H].
  exfalso. apply get_matrix_inv in H. rewrite Hrows in H.
  destruct H as (rows' & Hrows' & _ & Hwidth & Hcells).
  inversion Hrows'; subst rows'.
  specialize (Hwidth _ _ _ H0 He0 HN).
  destruct (Hcells i row Hi) as (eo & es & Hget' & Hiter' & Hes).
  rewrite Hget in Hget'. inversion Hget'; subst eo.
  rewrite Hiter in Hiter'. inversion Hiter'; subst es.
  destruct (Hes j _ Hj) as (d & st & Hd & Hst & Hfilled).
  inversion Hd; subst d. rewrite Hstatus in Hst. inversion Hst; subst st.
  rewrite Hok in Hfilled. destruct Hfilled as (v & _ & Hat).
  destruct (cell_at_width _ _ _ _ _ Hwidth Hat) as [_ Hlt]. lia.
Qed.

Lemma sample_element_well_formed (status : string) (meters seconds : Z) :
  well_formed_element distance_cell (sample_element status meters seconds).
Proof.
  eexists _, _. split; [reflexivity|]. split; [reflexivity|].
  intros _. eexists. reflexivity.
Qed.

Lemma matrix_ragged_row_raises_witness :
  get_matrix distance_cell ragged_matrix_response = Raise IndexError.
Proof.
  eapply (matrix_ragged_row_raises distance_cell ragged_matrix_response
            _ _ _ _ _ _ 2 1 2).
  - reflexivity.
  - repeat constructor.
    + eexists _, _. split; [reflexivity|]. split; [reflexivity|].
      repeat constructor; apply sample_element_well_formed.
    + eexists _, _. split; [reflexivity|]. split; [reflexivity|].
      repeat constructor; apply sample_element_well_formed.
  - reflexivity.
  - reflexivity.
  - reflexivity.
  - reflexivity.
  - reflexivity.
  - reflexivity.
  - reflexivity.
  - reflexivity.
  - reflexivity.
  - lia.
Defined.

Example get_distance_matrix_ragged :
  get_distance_matrix ragged_matrix_response = Raise IndexError /\
  get_duration_matrix ragged_matrix_response = Raise IndexError.
Proof. split; reflexivity. Qed.

(** A shorter later row leaves [None] in the cells it does not reach. *)
Example get_distance_matrix_short_row :
  get_distance_matrix
    [("rows"%string,
      PyList
        [ PyDict [("elements"%string,
                   PyList [sample_element "OK" 0 0; sample_element "OK" 1500 120])];
          PyDict [("elements"%string, PyList [sample_element "OK" 700 50])] ])]
  = Ok [[PyInt 0; PyInt 1500]; [PyInt 700; PyNone]].
Proof. reflexivity. Qed.

Example get_matrix_without_rows :
  get_distance_matrix [("status"%string, PyStr (str_of "INVALID_REQUEST"))] = Ok [] /\
  get_duration_matrix [("rows"%string, PyList [])] = Ok [].
Proof. split; reflexivity. Qed.

(** ** Values that are not numbers *)

Lemma sum_from_not_a_number (x : list object) :
  Exists (fun v => forall n, v <> PyInt n) x ->
  forall start, sum_from start x = Raise TypeError.
Proof.
  induction x as [|v x IH]; intros H start.
  - inversion H.
  - destruct v as [| |n| |]; try reflexivity.
    simpl. apply IH. inversion H as [? ? Hv|]; subst; [|assumption].
    exfalso. exact (Hv n eq_refl).
Qed.

Lemma sum_from_raises (x : list object) :
  forall start e, sum_from start x = Raise e -> e = TypeError.
Proof.
  induction x as [|v x IH]; intros start e; simpl.
  - discriminate.
  - destruct v; try (intros H; inversion H; reflexivity). apply IH.
Qed.

Lemma map_sum_not_a_number (distances : list (list object)) :
  Exists (Exists (fun v => forall n, v <> PyInt n)) distances ->
  map_sum distances = Raise TypeError.
Proof.
  induction distances as [|x distances IH]; intros H.
  - inversion H.
  - simpl. unfold sum.
    destruct (sum_from 0 x) as [t|e] eqn:S; simpl.
    + inversion H as [? ? Hx|]; subst.
      * rewrite (sum_from_not_a_number _ Hx) in S. discriminate.
      * rewrite IH by assumption. reflexivity.
    + apply sum_from_raises in S. subst e. reflexivity.
Qed.

(** X19: the leg functions return the values as they find them; the totals
    then need integers.  If the legs of a response are returned and one of
    the values is [None], a string, a list or a dictionary, the matching
    total function raises [TypeError] and returns no total at all. *)
Theorem totals_need_numbers (directions_result : list dict)
    (values : list (list object)) :
  Exists (Exists (fun v => forall n, v <> PyInt n)) values ->
  (get_directions_legs_distance directions_result = Ok values ->
   get_directions_total_distance directions_result = Raise TypeError) /\
  (get_directions_legs_duration directions_result = Ok values ->
   get_directions_total_duration directions_result = Raise TypeError).
Proof.
  intros H.
  unfold get_directions_total_distance, get_directions_total_duration.
  split; intros ->; rewrite bind_Ok; apply map_sum_not_a_number; exact H.
Qed.

Lemma totals_need_numbers_witness :
  Exists (Exists (fun v => forall n, v <> PyInt n)) [[PyInt 1200; PyNone]] /\
  get_directions_legs_distance sample_route_without_value = Ok [[PyInt 1200; PyNone]] /\
  get_directions_total_distance sample_route_without_value = Raise TypeError.
Proof.
  assert (H : Exists (Exists (fun v => forall n, v <> PyInt n)) [[PyInt 1200; PyNone]]).
  { constructor. apply Exists_cons_tl. constructor. discriminate. }
  split; [exact H|]. split; [reflexivity|].
  exact (proj1 (totals_need_numbers sample_route_without_value _ H) eq_refl).
Defined.
